(** * Verification of the DSA study collection

    A shallow embedding of four of the repository's data structures and
    the properties stated about them:

    - [MinHeap]  : [DSA/Data Structure/6_trees/heap.py]
    - [BST]      : [DSA/Data Structure/6_trees/bst.py]
    - [HashMap]  : [DSA/Data Structure/5._hash_map.py]
    - [Graph]    : [DSA/Data Structure/7_graphs/simple.py]

    Conventions.  Python [int] is unbounded, so values are [Z]; list
    positions produced by the heap code are never negative, so they are
    [nat].  A computation that may raise (an [IndexError] on a list
    access, a [ZeroDivisionError]) or that is driven by a [while] loop or
    an unbounded recursion has type [option _]: the outer [None] means
    that the run yields no value (an exception, or the loop budget [fuel]
    was used up).  A Python [None] that is *returned* is an inner
    [option].

    The first part of the file is the embedding, one module per source
    file; the second part states and proves the properties. *)

From Stdlib Require Import ZArith Lia.
From stdpp Require Import base option list sorting strings gmap.

(** ** Python list primitives shared by the modules *)

(** [l[i] = x] for [0 <= i]: raises [IndexError] out of range. *)
Definition setitem {A} (l : list A) (i : nat) (x : A) : option (list A) :=
  if i <? length l then Some (<[i:=x]> l) else None.

(** [l.pop()]: removes and returns the last item; raises on an empty list. *)
Definition pop {A} (l : list A) : option (A * list A) :=
  x ← last l; Some (x, take (length l - 1) l).

(** [l[i], l[j] = l[j], l[i]]: the right-hand side is read first, then
    [l[i]] and [l[j]] are assigned in this order. *)
Definition swap {A} (l : list A) (i j : nat) : option (list A) :=
  lj ← l !! j; li ← l !! i;
  l1 ← setitem l i lj; setitem l1 j li.

(** Position denoted by a Python index [i : int] in a list of length [n]:
    a negative index counts from the end; [IndexError] outside
    [-n <= i < n]. *)
Definition py_position (n : nat) (i : Z) : option nat :=
  if decide (0 ≤ i < Z.of_nat n)%Z then Some (Z.to_nat i)
  else if decide (- Z.of_nat n ≤ i < 0)%Z then Some (Z.to_nat (Z.of_nat n + i))
  else None.

(** [l[i]] and [l[i] = x] for an arbitrary Python integer index. *)
Definition py_getitem {A} (l : list A) (i : Z) : option A :=
  p ← py_position (length l) i; l !! p.

Definition py_setitem {A} (l : list A) (i : Z) (x : A) : option (list A) :=
  p ← py_position (length l) i; setitem l p x.

(** [for x in xs: s = body(s, x)], where the body may fail. *)
Fixpoint for_each {A S} (xs : list A) (body : S → A → option S) (s : S)
  : option S :=
  match xs with
  | [] => Some s
  | x :: xs' => s' ← body s x; for_each xs' body s'
  end.

(** ** MinHeap ([6_trees/heap.py]) *)
Module MinHeap.

(** The object's only field is [self.heap : List[int]]; a heap state is
    that list. *)
Definition parent (index : nat) : nat :=
  if index <? 3 then 0 else (index - 1) / 2.

Definition leftChild (index : nat) : nat := 2 * index + 1.

Definition rightChild (index : nat) : nat := 2 * index + 2.

(** The [while new_child_index > 0] loop of [insert]; [fuel] bounds the
    number of times the loop body runs. *)
Fixpoint sift_up (fuel : nat) (heap : list Z) (new_child_index : nat)
  : option (list Z) :=
  if 0 <? new_child_index then
    match fuel with
    | 0 => None
    | S fuel' =>
        let parent_index := parent new_child_index in
        hp ← heap !! parent_index;
        hc ← heap !! new_child_index;
        if (hp >? hc)%Z then
          heap' ← swap heap parent_index new_child_index;
          sift_up fuel' heap' parent_index
        else Some heap
    end
  else Some heap.

Definition insert (heap : list Z) (key : Z) : option (list Z) :=
  let heap := heap ++ [key] in
  let new_child_index := length heap - 1 in
  sift_up new_child_index heap new_child_index.

(** The [while True] loop of [extract_min]. *)
Fixpoint sift_down (fuel : nat) (heap : list Z) (size index : nat)
  : option (list Z) :=
  match fuel with
  | 0 => None
  | S fuel' =>
      let left := leftChild index in
      let right := rightChild index in
      let smallest := index in
      smallest ←
        (if left <? size then
           hl ← heap !! left; hs ← heap !! smallest;
           Some (if (hl <? hs)%Z then left else smallest)
         else Some smallest);
      smallest ←
        (if right <? size then
           hr ← heap !! right; hs ← heap !! smallest;
           Some (if (hr <? hs)%Z then right else smallest)
         else Some smallest);
      if negb (smallest =? index) then
        heap' ← swap heap index smallest;
        sift_down fuel' heap' size smallest
      else Some heap
  end.

(** Returns the value handed back to the caller (an inner [None] is
    Python's [None]) together with the new heap. *)
Definition extract_min (heap : list Z) : option (option Z * list Z) :=
  if bool_decide (heap = []) then Some (None, heap)
  else if length heap =? 1 then
    '(x, heap) ← pop heap; Some (Some x, heap)
  else
    min_val ← heap !! 0;
    '(x, heap) ← pop heap;
    heap ← setitem heap 0 x;
    let size := length heap in
    heap ← sift_down size heap size 0;
    Some (Some min_val, heap).

(** [for x in keys: h.insert(x)] *)
Definition insert_all (heap : list Z) (keys : list Z) : option (list Z) :=
  for_each keys insert heap.

(** [n] successive calls of [extract_min], with the values they return. *)
Fixpoint extract_many (n : nat) (heap : list Z)
  : option (list (option Z) * list Z) :=
  match n with
  | 0 => Some ([], heap)
  | S n' =>
      '(r, heap') ← extract_min heap;
      '(rs, heap'') ← extract_many n' heap';
      Some (r :: rs, heap'')
  end.

End MinHeap.

(** ** BST ([6_trees/bst.py]) *)
Module BST.

(** A [BST] object always carries [data]; [left] and [right] are [None]
    or another object. *)
#[local] Unset Elimination Schemes.
Inductive BST : Type :=
  Node (data : Z) (left right : option BST).
#[local] Set Elimination Schemes.

(** [BST(data)] *)
Definition new (data : Z) : BST := Node data None None.

(** [self.insert(data)] mutates the tree under [self]; the function
    returns the tree after the call.  [not data] holds exactly for
    [data = 0]; an object reference is truthy, [None] is falsy. *)
Fixpoint insert (self : BST) (data : Z) : BST :=
  match self with
  | Node self_data self_left self_right =>
      if (data =? 0)%Z then self
      else if (self_data =? data)%Z then self
      else if (data <? self_data)%Z then
        match self_left with
        | Some l => Node self_data (Some (insert l data)) self_right
        | None => Node self_data (Some (new data)) self_right
        end
      else
        match self_right with
        | Some r => Node self_data self_left (Some (insert r data))
        | None => Node self_data self_left (Some (new data))
        end
  end.

(** [self.inorder()]: the values printed, in order. *)
Fixpoint inorder (self : BST) : list Z :=
  let _inorder := fun node : option BST =>
    match node with
    | Some n => inorder n
    | None => []
    end in
  match self with
  | Node self_data self_left self_right =>
      _inorder self_left ++ [self_data] ++ _inorder self_right
  end.

(** [for x in values: bst.insert(x)] *)
Definition insert_all (self : BST) (values : list Z) : BST :=
  foldl insert self values.

(** [self.preorder()]: the values printed, in order. *)
Fixpoint preorder (self : BST) : list Z :=
  let _preorder := fun node : option BST =>
    match node with
    | Some n => preorder n
    | None => []
    end in
  match self with
  | Node self_data self_left self_right =>
      [self_data] ++ _preorder self_left ++ _preorder self_right
  end.

(** [self.search(data)] *)
Fixpoint search (self : BST) (data : Z) : bool :=
  let _search := fun (node : option BST) (data : Z) =>
    match node with
    | Some n => search n data
    | None => false
    end in
  match self with
  | Node self_data self_left self_right =>
      if (data =? self_data)%Z then true
      else if (data <? self_data)%Z then _search self_left data
      else _search self_right data
  end.

End BST.

(** ** HashMap ([5._hash_map.py]) *)
Module HashMap.

(** Keys are hashable Python values; integers and strings are modelled.
    [==] between an [int] and a [str] is [False]. *)
Inductive pykey : Type :=
  | KInt (z : Z)
  | KStr (s : string).

Definition py_eqb (a b : pykey) : bool :=
  match a, b with
  | KInt x, KInt y => (x =? y)%Z
  | KStr s, KStr t => bool_decide (s = t)
  | _, _ => false
  end.

Section WithHash.

(** Python's builtin [hash]; for [str] it differs from process to
    process, so it is a parameter. *)
Variable hash : pykey → Z.

(** Type of the stored values. *)
Variable V : Type.

(** A reference that is [None] or a [Node(key, value)] with its [next]. *)
Inductive chain : Type :=
  | Nil
  | Node (key : pykey) (value : V) (next : chain).

Record HashMap : Type := mkHashMap {
  size : Z;
  buckets : list chain
}.

(** [HashMap(size)]: [[None] * size] is empty for [size <= 0]. *)
Definition new (size : Z) : HashMap :=
  mkHashMap size (replicate (Z.to_nat size) Nil).

(** [hash(key) % self.size]; Python's [%] takes the sign of the divisor,
    as [Z.modulo] does, and raises for a zero divisor. *)
Definition _hash (self : HashMap) (key : pykey) : option Z :=
  if (size self =? 0)%Z then None else Some (hash key mod size self)%Z.

(** The [while current] loop of [put]: [Some] of the chain with the value
    overwritten when a node with the key is met, [None] when the loop
    ends without a match. *)
Fixpoint put_loop (current : chain) (key : pykey) (value : V)
  : option chain :=
  match current with
  | Nil => None
  | Node k v next =>
      if py_eqb k key then Some (Node k value next)
      else Node k v <$> put_loop next key value
  end.

Definition put (self : HashMap) (key : pykey) (value : V) : option HashMap :=
  index ← _hash self key;
  head ← py_getitem (buckets self) index;
  match put_loop head key value with
  | Some head' =>
      buckets' ← py_setitem (buckets self) index head';
      Some (mkHashMap (size self) buckets')
  | None =>
      let new_node := Node key value head in
      buckets' ← py_setitem (buckets self) index new_node;
      Some (mkHashMap (size self) buckets')
  end.

(** The [while current] loop of [get]; the stored key is compared with
    [index]. *)
Fixpoint get_loop (current : chain) (index : Z) : option V :=
  match current with
  | Nil => None
  | Node k v next =>
      if py_eqb k (KInt index) then Some v else get_loop next index
  end.

Definition get (self : HashMap) (key : pykey) : option (option V) :=
  index ← _hash self key;
  current ← py_getitem (buckets self) index;
  Some (get_loop current index).

(** The [while current] loop of [remove]: [Some] of the chain with the
    first matching node unlinked, [None] when there is no match. *)
Fixpoint remove_loop (current : chain) (key : pykey) : option chain :=
  match current with
  | Nil => None
  | Node k v next =>
      if py_eqb k key then Some next
      else Node k v <$> remove_loop next key
  end.

Definition remove (self : HashMap) (key : pykey) : option (bool * HashMap) :=
  index ← _hash self key;
  current ← py_getitem (buckets self) index;
  match remove_loop current key with
  | Some current' =>
      buckets' ← py_setitem (buckets self) index current';
      Some (true, mkHashMap (size self) buckets')
  | None => Some (false, self)
  end.

(** [for k, v in items: m.put(k, v)] and [for k in keys: m.remove(k)] *)
Definition put_all (self : HashMap) (items : list (pykey * V))
  : option HashMap :=
  for_each items (λ m kv, put m kv.1 kv.2) self.

Definition remove_all (self : HashMap) (keys : list pykey)
  : option HashMap :=
  for_each keys (λ m k, snd <$> remove m k) self.

End WithHash.

Arguments Nil {V}.
Arguments Node {V} key value next.
Arguments mkHashMap {V} size buckets.
Arguments size {V} _.
Arguments buckets {V} _.
Arguments new {V} size.

End HashMap.

(** ** Graph ([7_graphs/simple.py]) *)
Module Graph.

Definition routes : list (string * string) :=
  [ ("Mumbai", "Paris");
    ("Mumbai", "Dubai");
    ("Paris", "Dubai");
    ("Paris", "New York");
    ("Dubai", "New York");
    ("New York", "Toronto") ]%string.

(** [Graph(edges)]: the adjacency dictionary [self.graph_dict]. *)
Definition new (edges : list (string * string)) : gmap string (list string) :=
  foldl (λ graph_dict '(start, end_),
           match graph_dict !! start with
           | Some adj => <[start := adj ++ [end_]]> graph_dict
           | None => <[start := [end_]]> graph_dict
           end) ∅ edges.

Definition graph : gmap string (list string) := new routes.

(** The recursion of [get_all_paths] is not bounded by the code: [fuel]
    is the recursion depth allowed, [None] that it was exceeded. *)
Fixpoint get_all_paths (fuel : nat) (graph_dict : gmap string (list string))
  (start end_ : string) (path : list string) : option (list (list string)) :=
  match fuel with
  | 0 => None
  | S fuel' =>
      let path := path ++ [start] in
      if decide (start = end_) then Some [path]
      else
        match graph_dict !! start with
        | None => Some []
        | Some adj =>
            if length adj =? 0 then Some []
            else
              for_each adj
                (λ temp_paths node,
                   new_paths ← get_all_paths fuel' graph_dict node end_ path;
                   Some (temp_paths ++ new_paths))
                []
        end
  end.

(** [float('inf')] or a length: [None] is infinity. *)
Definition lt_inf (n : nat) (bound : option nat) : bool :=
  match bound with
  | None => true
  | Some m => n <? m
  end.

(** The index-selection loop of [find_shortest_path]; the state is
    [(shortest_index, shortest_length)]. *)
Definition shortest_loop (all_paths : list (list string))
  : option (option nat * option nat) :=
  for_each (seq 0 (length all_paths))
    (λ '(shortest_index, shortest_length) path_index,
       p ← all_paths !! path_index;
       if lt_inf (length p) shortest_length
       then Some (Some path_index, Some (length p))
       else Some (shortest_index, shortest_length))
    (None, None).

Definition find_shortest_path (fuel : nat)
  (graph_dict : gmap string (list string)) (start end_ : string)
  : option (list string) :=
  if decide (start = end_) then Some []
  else
    all_paths ← get_all_paths fuel graph_dict start end_ [];
    if negb (length all_paths =? 0) then
      '(shortest_index, _) ← shortest_loop all_paths;
      i ← shortest_index;
      all_paths !! i
    else Some [].

End Graph.

(** * Properties *)

Set Warnings "-clear-no-such-hyp".

(** Normalises membership in appended and consed lists. *)
Ltac elem_of_norm :=
  repeat (rewrite elem_of_app || rewrite elem_of_cons || rewrite elem_of_nil).

(** ** Facts on the list primitives *)
Section ListPrimitives.
Context {A : Type} `{!Inhabited A}.
Implicit Types l : list A.

(** The list obtained by exchanging positions [i] and [j]. *)
Definition exchanged l (i j : nat) : list A :=
  <[j := l !!! i]> (<[i := l !!! j]> l).

Lemma setitem_Some l i x : i < length l → setitem l i x = Some (<[i:=x]> l).
Proof.
  intros Hi. unfold setitem.
  destruct (Nat.ltb_spec i (length l)); [done | lia].
Qed.

Lemma swap_Some l i j :
  i < length l → j < length l → swap l i j = Some (exchanged l i j).
Proof.
  intros Hi Hj. unfold swap, exchanged.
  rewrite (list_lookup_lookup_total_lt l j Hj), (list_lookup_lookup_total_lt l i Hi).
  simpl. rewrite setitem_Some by done. simpl.
  rewrite setitem_Some by (rewrite length_insert; done). done.
Qed.

Lemma length_exchanged l i j : length (exchanged l i j) = length l.
Proof. unfold exchanged. by rewrite !length_insert. Qed.

Lemma exchanged_left l i j :
  i < length l → j < length l → exchanged l i j !!! i = l !!! j.
Proof.
  intros Hi Hj. unfold exchanged.
  destruct (decide (i = j)) as [->|Hne].
  - rewrite list_lookup_total_insert_eq; [done | by rewrite length_insert].
  - rewrite list_lookup_total_insert_ne by done.
    by rewrite list_lookup_total_insert_eq.
Qed.

Lemma exchanged_right l i j :
  j < length l → exchanged l i j !!! j = l !!! i.
Proof.
  intros Hj. unfold exchanged.
  rewrite list_lookup_total_insert_eq; [done | by rewrite length_insert].
Qed.

Lemma exchanged_other l i j k :
  k ≠ i → k ≠ j → exchanged l i j !!! k = l !!! k.
Proof.
  intros Hi Hj. unfold exchanged.
  by rewrite !list_lookup_total_insert_ne.
Qed.

Lemma insert_head_Permutation l j (a b : A) :
  l !! j = Some b → b :: <[j:=a]> l ≡ₚ a :: l.
Proof.
  revert j. induction l as [|c l IH]; intros [|j] Hj; simplify_eq/=.
  - apply perm_swap.
  - rewrite perm_swap. rewrite (IH _ Hj). apply perm_swap.
Qed.

Lemma insert_insert_Permutation l i j (a b : A) :
  l !! i = Some a → l !! j = Some b → <[j:=a]> (<[i:=b]> l) ≡ₚ l.
Proof.
  revert i j. induction l as [|c l IH]; intros [|i] [|j] Hi Hj; simplify_eq/=.
  - done.
  - by apply insert_head_Permutation.
  - by apply insert_head_Permutation.
  - f_equiv. by apply IH.
Qed.

Lemma exchanged_Permutation l i j :
  i < length l → j < length l → exchanged l i j ≡ₚ l.
Proof.
  intros Hi Hj. unfold exchanged.
  apply insert_insert_Permutation; by apply list_lookup_lookup_total_lt.
Qed.

Lemma pop_snoc l x : pop (l ++ [x]) = Some (x, l).
Proof.
  unfold pop. rewrite last_snoc. simpl.
  rewrite length_app. simpl.
  replace (length l + 1 - 1) with (length l) by lia.
  by rewrite take_app_length.
Qed.

Lemma exchanged_lookup l i j k :
  i < length l → j < length l → i ≠ j →
  exchanged l i j !!! k =
    if decide (k = i) then l !!! j
    else if decide (k = j) then l !!! i
    else l !!! k.
Proof.
  intros Hi Hj Hne. repeat case_decide; subst.
  - by apply exchanged_left.
  - by apply exchanged_right.
  - by apply exchanged_other.
Qed.

End ListPrimitives.

(** ** Facts on Python indices and on [for] loops *)

Lemma py_position_in_range (n : nat) (i : Z) :
  (0 ≤ i < Z.of_nat n)%Z → py_position n i = Some (Z.to_nat i).
Proof. intros Hi. unfold py_position. by rewrite decide_True. Qed.

Lemma for_each_mono {A S} (xs : list A) (body1 body2 : S → A → option S) :
  (∀ s x s', x ∈ xs → body1 s x = Some s' → body2 s x = Some s') →
  ∀ s r, for_each xs body1 s = Some r → for_each xs body2 s = Some r.
Proof.
  induction xs as [|x xs IH]; intros Hbody s r; simpl; [done|].
  destruct (body1 s x) as [s1|] eqn:H1; simpl; [|done].
  rewrite (Hbody s x s1) by (done || by left). simpl.
  apply IH. intros s0 y s' Hy. apply Hbody. by right.
Qed.

(** ** MinHeap *)
Module MinHeapSpec.
Import MinHeap.

(** The min-heap order: no position holds a value below its parent's. *)
Definition heap_ordered (h : list Z) : Prop :=
  ∀ j, 0 < j < length h → (h !!! parent j ≤ h !!! j)%Z.

(** Heap order with one exception, position [i], whose value may be
    below its parent's (the state of the loop of [insert]). *)
Definition ordered_except_up (h : list Z) (i : nat) : Prop :=
  (∀ j, 0 < j < length h → j ≠ i → (h !!! parent j ≤ h !!! j)%Z) ∧
  (∀ j, 0 < j < length h → 0 < i → parent j = i →
        (h !!! parent i ≤ h !!! j)%Z).

(** Heap order with one exception, position [i], whose value may be
    above its children's (the state of the loop of [extract_min]). *)
Definition ordered_except_down (h : list Z) (i : nat) : Prop :=
  (∀ j, 0 < j < length h → parent j ≠ i → (h !!! parent j ≤ h !!! j)%Z) ∧
  (∀ j, 0 < j < length h → 0 < i → parent j = i →
        (h !!! parent i ≤ h !!! j)%Z).

(** Executable test of the heap order. *)
Definition heap_orderedb (h : list Z) : bool :=
  forallb (λ j, (h !!! parent j <=? h !!! j)%Z) (seq 1 (length h - 1)).

Lemma heap_orderedb_correct h : heap_orderedb h = true ↔ heap_ordered h.
Proof.
  unfold heap_orderedb, heap_ordered. rewrite forallb_forall. split.
  - intros Hb j Hj. apply Z.leb_le, Hb, in_seq. lia.
  - intros Hh j Hj%in_seq. apply Z.leb_le, Hh. lia.
Qed.

(** The run at the end of [heap.py]. *)
Example sample_build :
  insert_all [] [10; 4; 20; 0; 2]%Z = Some [0; 2; 20; 10; 4]%Z.
Proof. reflexivity. Qed.

Example sample_extract :
  extract_min [0; 2; 20; 10; 4]%Z = Some (Some 0%Z, [2; 4; 20; 10]%Z).
Proof. reflexivity. Qed.

Lemma parent_lt j : 0 < j → parent j < j.
Proof.
  intros Hj. unfold parent. destruct (Nat.ltb_spec j 3); [lia|].
  pose proof (Nat.div_mod_eq (j - 1) 2).
  pose proof (Nat.mod_upper_bound (j - 1) 2). lia.
Qed.

Lemma parent_children j i :
  0 < j → parent j = i ↔ j = leftChild i ∨ j = rightChild i.
Proof.
  intros Hj. unfold parent, leftChild, rightChild.
  destruct (Nat.ltb_spec j 3); [lia|].
  pose proof (Nat.div_mod_eq (j - 1) 2).
  pose proof (Nat.mod_upper_bound (j - 1) 2). lia.
Qed.

Lemma sift_up_step h i :
  0 < i < length h → ordered_except_up h i →
  (h !!! i < h !!! parent i)%Z →
  ordered_except_up (exchanged h (parent i) i) (parent i).
Proof.
  intros Hi [Ha Hb] Hlt.
  pose proof (parent_lt i (proj1 Hi)) as Hp.
  split; intros j Hj; rewrite length_exchanged in Hj.
  - intros Hjp. pose proof (parent_lt j (proj1 Hj)) as Hpj.
    destruct (decide (j = i)) as [->|Hji].
    + rewrite exchanged_left, exchanged_right by lia. lia.
    + rewrite (exchanged_other _ _ _ j) by done.
      specialize (Ha j Hj Hji). specialize (Hb j Hj).
      rewrite exchanged_lookup by lia.
      repeat case_decide; [|lia..].
      replace (parent i) with (parent j) in Hlt by done. lia.
  - intros Hp0 Hjp. pose proof (parent_lt _ Hp0) as Hpp.
    pose proof (parent_lt j (proj1 Hj)) as Hpj.
    rewrite (exchanged_other _ _ _ (parent (parent i))) by lia.
    assert (h !!! parent (parent i) ≤ h !!! parent i)%Z as Hgp
      by (apply Ha; lia).
    destruct (decide (j = i)) as [->|Hji].
    + rewrite exchanged_right by lia. done.
    + rewrite exchanged_other by lia.
      specialize (Ha j Hj Hji). rewrite Hjp in Ha. lia.
Qed.

Lemma sift_up_done h i :
  ordered_except_up h i →
  i = 0 ∨ (h !!! parent i ≤ h !!! i)%Z →
  heap_ordered h.
Proof.
  intros [Ha _] Hi j Hj.
  destruct (decide (j = i)) as [->|Hji]; [|by apply Ha].
  destruct Hi; [lia | done].
Qed.

(** The loop of [insert] ends within [i] rounds, only reorders the list,
    and repairs the heap order. *)
Lemma sift_up_correct fuel : ∀ h i,
  i ≤ fuel → i < length h →
  ∃ h', sift_up fuel h i = Some h' ∧ h' ≡ₚ h ∧
        (ordered_except_up h i → heap_ordered h').
Proof.
  induction fuel as [|fuel IH]; intros h i Hfuel Hi.
  - assert (i = 0) as -> by lia. exists h. simpl.
    split_and!; [done..|]. intros Hok. eapply sift_up_done; eauto.
  - simpl. destruct (Nat.ltb_spec 0 i) as [Hpos|Hz].
    2:{ exists h. split_and!; [done..|].
        intros Hok. eapply sift_up_done; eauto. left; lia. }
    pose proof (parent_lt i Hpos) as Hp.
    rewrite (list_lookup_lookup_total_lt h (parent i)) by lia.
    rewrite (list_lookup_lookup_total_lt h i) by lia. simpl.
    destruct (Z.gtb_spec (h !!! parent i) (h !!! i)) as [Hgt|Hle].
    + rewrite swap_Some by lia. simpl.
      destruct (IH (exchanged h (parent i) i) (parent i))
        as (h' & Hrun & Hperm & Hord); [lia | rewrite length_exchanged; lia |].
      exists h'. split_and!; [done | |].
      * rewrite Hperm. apply exchanged_Permutation; lia.
      * intros Hok. apply Hord, sift_up_step; [lia | done | lia].
    + exists h. split_and!; [done..|].
      intros Hok. eapply sift_up_done; eauto.
Qed.

Lemma heap_ordered_snoc_up h key :
  heap_ordered h → ordered_except_up (h ++ [key]) (length h).
Proof.
  intros Hh. split; intros j Hj; rewrite length_app in Hj; simpl in Hj.
  - intros Hne. pose proof (parent_lt j (proj1 Hj)).
    rewrite !lookup_total_app_l by lia. apply Hh. lia.
  - intros _ Hp. pose proof (parent_lt j (proj1 Hj)). lia.
Qed.

(** [insert] returns, adds exactly [key], and keeps the heap order. *)
Lemma insert_correct h key :
  ∃ h', insert h key = Some h' ∧ h' ≡ₚ key :: h ∧
        (heap_ordered h → heap_ordered h').
Proof.
  unfold insert. rewrite length_app. simpl.
  replace (length h + 1 - 1) with (length h) by lia.
  destruct (sift_up_correct (length h) (h ++ [key]) (length h))
    as (h' & Hrun & Hperm & Hord); [lia | rewrite length_app; simpl; lia |].
  exists h'. split_and!; [done | |].
  - rewrite Hperm. by rewrite Permutation_app_comm.
  - intros Hh. by apply Hord, heap_ordered_snoc_up.
Qed.

Lemma sift_down_step h i s :
  i < length h → s < length h → parent s = i → 0 < s →
  ordered_except_down h i →
  (h !!! s < h !!! i)%Z →
  (∀ j, 0 < j < length h → parent j = i → (h !!! s ≤ h !!! j)%Z) →
  ordered_except_down (exchanged h i s) s.
Proof.
  intros Hi Hs Hps Hs0 [Ha Hb] Hlt Hmin.
  pose proof (parent_lt s Hs0) as Hlts. rewrite Hps in Hlts.
  split; intros j Hj; rewrite length_exchanged in Hj.
  - intros Hjp. pose proof (parent_lt j (proj1 Hj)) as Hpj.
    destruct (decide (j = s)) as [->|Hjs].
    { rewrite Hps. rewrite exchanged_left, exchanged_right by lia. lia. }
    destruct (decide (j = i)) as [->|Hji].
    { rewrite exchanged_left by lia.
      rewrite exchanged_other by lia. apply Hb; [lia..|done]. }
    rewrite (exchanged_other _ _ _ j) by done.
    destruct (decide (parent j = i)) as [Hpi|Hpi].
    + rewrite Hpi, exchanged_left by lia. by apply Hmin.
    + rewrite exchanged_other by done. by apply Ha.
  - intros _ Hjp. pose proof (parent_lt j (proj1 Hj)) as Hpj.
    rewrite Hps, exchanged_left by lia.
    rewrite exchanged_other by lia.
    rewrite <-Hjp. apply Ha; [done | lia].
Qed.

Lemma sift_down_done h i :
  ordered_except_down h i →
  (∀ j, 0 < j < length h → parent j = i → (h !!! i ≤ h !!! j)%Z) →
  heap_ordered h.
Proof.
  intros [Ha _] Hi j Hj.
  destruct (decide (parent j = i)) as [Hp|Hp]; [|by apply Ha].
  rewrite Hp. by apply Hi.
Qed.

(** The loop of [extract_min] ends within [length h - i] rounds, only
    reorders the list, and repairs the heap order. *)
Lemma sift_down_correct fuel : ∀ h i,
  length h ≤ fuel + i → i < length h →
  ∃ h', sift_down fuel h (length h) i = Some h' ∧ h' ≡ₚ h ∧
        (ordered_except_down h i → heap_ordered h').
Proof.
  induction fuel as [|fuel IH]; intros h i Hfuel Hi; [lia|].
  cbn [sift_down]. unfold leftChild, rightChild.
  set (l := 2 * i + 1). set (r := 2 * i + 2).
  (* the candidate after the test of the left child *)
  set (s1 := if decide (l < length h ∧ (h !!! l < h !!! i)%Z) then l else i).
  assert ((if l <? length h
           then hl ← h !! l; hs ← h !! i;
                Some (if (hl <? hs)%Z then l else i)
           else Some i) = Some s1) as ->.
  { subst s1. destruct (Nat.ltb_spec l (length h)) as [Hl|Hl].
    - rewrite (list_lookup_lookup_total_lt h l), (list_lookup_lookup_total_lt h i) by lia.
      simpl. destruct (Z.ltb_spec (h !!! l) (h !!! i)); case_decide; (done || lia).
    - case_decide; [lia | done]. }
  assert (s1 < length h) as Hs1 by (subst s1; case_decide; lia).
  set (s2 := if decide (r < length h ∧ (h !!! r < h !!! s1)%Z) then r else s1).
  cbn [mbind option_bind].
  assert ((if r <? length h
           then hr ← h !! r; hs ← h !! s1;
                Some (if (hr <? hs)%Z then r else s1)
           else Some s1) = Some s2) as ->.
  { subst s2. destruct (Nat.ltb_spec r (length h)) as [Hr|Hr].
    - rewrite (list_lookup_lookup_total_lt h r), (list_lookup_lookup_total_lt h s1) by lia.
      simpl. destruct (Z.ltb_spec (h !!! r) (h !!! s1)); case_decide; (done || lia).
    - case_decide; [lia | done]. }
  cbn [mbind option_bind].
  assert (s2 < length h) as Hs2 by (subst s2; case_decide; lia).
  assert (s2 = i ∨ s2 = l ∨ s2 = r) as Hcases
    by (subst s2 s1; repeat case_decide; lia).
  assert ((h !!! s2 ≤ h !!! i)%Z ∧
          (l < length h → (h !!! s2 ≤ h !!! l)%Z) ∧
          (r < length h → (h !!! s2 ≤ h !!! r)%Z)) as (Hmi & Hml & Hmr).
  { subst s2 s1. repeat case_decide; split_and!; intros; lia. }
  assert (s2 ≠ i → (h !!! s2 < h !!! i)%Z) as Hstrict.
  { subst s2 s1. repeat case_decide; intros; lia. }
  assert (∀ j, 0 < j < length h → parent j = i → (h !!! s2 ≤ h !!! j)%Z)
    as Hmin.
  { intros j Hj Hp. apply parent_children in Hp; [|lia].
    unfold leftChild, rightChild in Hp. fold l r in Hp.
    destruct Hp as [->| ->]; [apply Hml | apply Hmr]; lia. }
  destruct (Nat.eqb_spec s2 i) as [Heq|Hne]; simpl.
  - exists h. split_and!; [done..|]. intros Hok.
    apply (sift_down_done h i Hok). intros j Hj Hp.
    rewrite <-Heq at 1. by apply Hmin.
  - rewrite swap_Some by lia. simpl.
    assert (parent s2 = i ∧ 0 < s2) as [Hps Hs0].
    { split; [|lia]. apply parent_children; [lia|].
      unfold leftChild, rightChild. fold l r. tauto. }
    destruct (IH (exchanged h i s2) s2) as (h' & Hrun & Hperm & Hord).
    { rewrite length_exchanged. lia. }
    { by rewrite length_exchanged. }
    rewrite length_exchanged in Hrun.
    exists h'. split_and!; [done | |].
    + rewrite Hperm. apply exchanged_Permutation; lia.
    + intros Hok. apply Hord, sift_down_step; auto.
Qed.

(** In a heap-ordered list the root is a least element. *)
Lemma heap_ordered_root_le h :
  heap_ordered h → ∀ i, i < length h → (h !!! 0%nat ≤ h !!! i)%Z.
Proof.
  intros Hh i. induction (lt_wf i) as [i _ IH]. intros Hi.
  destruct (decide (i = 0)) as [->|Hpos]; [lia|].
  pose proof (parent_lt i ltac:(lia)) as Hp.
  specialize (IH (parent i) Hp ltac:(lia)).
  specialize (Hh i ltac:(lia)). lia.
Qed.

Lemma heap_ordered_root_min h m :
  heap_ordered h → h !! 0 = Some m → ∀ x, x ∈ h → (m ≤ x)%Z.
Proof.
  intros Hh Hm x [i Hx]%list_elem_of_lookup.
  pose proof (lookup_lt_Some _ _ _ Hx) as Hi.
  pose proof (heap_ordered_root_le h Hh i Hi) as Hle.
  rewrite (list_lookup_total_correct _ _ _ Hm) in Hle.
  by rewrite (list_lookup_total_correct _ _ _ Hx) in Hle.
Qed.

(** Replacing the root by the last item leaves only the root out of order. *)
Lemma heap_ordered_replace_root m x t :
  heap_ordered ((m :: t) ++ [x]) → ordered_except_down (x :: t) 0.
Proof.
  intros Hh. split; intros j Hj; [|lia].
  intros Hp. pose proof (parent_lt j (proj1 Hj)) as Hlt.
  simpl in Hj.
  specialize (Hh j). rewrite length_app in Hh.
  rewrite !lookup_total_app_l in Hh by (simpl; lia).
  destruct j as [|j]; [lia|].
  destruct (parent (S j)) as [|p] eqn:Hpj; [done|].
  apply Hh. simpl. lia.
Qed.

Lemma extract_min_empty : extract_min [] = Some (None, []).
Proof. reflexivity. Qed.

Lemma extract_min_nonempty h :
  h ≠ [] →
  ∃ m h', extract_min h = Some (Some m, h') ∧ h !! 0 = Some m ∧
          h ≡ₚ m :: h' ∧ (heap_ordered h → heap_ordered h').
Proof.
  intros Hne. destruct h as [|m t]; [done|]. clear Hne.
  unfold extract_min. rewrite bool_decide_eq_false_2 by done.
  destruct (decide (t = [])) as [->|Ht].
  - exists m, []. simpl. split_and!; [done..|].
    intros _ j Hj. simpl in Hj. lia.
  - destruct (proj2 (last_is_Some t) Ht) as [x Hx].
    apply last_Some in Hx as [t' ->].
    replace (length (m :: t' ++ [x]) =? 1) with false.
    2:{ symmetry. apply Nat.eqb_neq. simpl. rewrite length_app. simpl. lia. }
    change (m :: t' ++ [x]) with ((m :: t') ++ [x]).
    rewrite pop_snoc. simpl.
    destruct (sift_down_correct (length (x :: t')) (x :: t') 0)
      as (h' & Hrun & Hperm & Hord); [lia | simpl; lia |].
    simpl in Hrun. rewrite Hrun. simpl.
    exists m, h'. split_and!; [done.. | |].
    + rewrite Hperm. rewrite <-Permutation_cons_append. done.
    + intros Hh. by apply Hord, (heap_ordered_replace_root m).
Qed.

Lemma insert_all_correct keys : ∀ h,
  ∃ h', insert_all h keys = Some h' ∧ h' ≡ₚ keys ++ h ∧
        (heap_ordered h → heap_ordered h').
Proof.
  unfold insert_all.
  induction keys as [|k keys IH]; intros h; simpl.
  - by exists h.
  - destruct (insert_correct h k) as (h1 & -> & Hperm1 & Hord1). simpl.
    destruct (IH h1) as (h2 & Hrun & Hperm2 & Hord2).
    exists h2. split_and!; [done | | by auto].
    rewrite Hperm2, Hperm1. by rewrite Permutation_middle.
Qed.

Lemma heap_ordered_nil : heap_ordered [].
Proof. intros j Hj. simpl in Hj. lia. Qed.

Lemma extract_many_correct n : ∀ h,
  length h = n → heap_ordered h →
  ∃ vs, extract_many n h = Some (Some <$> vs, []) ∧
        vs ≡ₚ h ∧ StronglySorted Z.le vs.
Proof.
  induction n as [|n IH]; intros h Hlen Hh.
  - apply nil_length_inv in Hlen as ->. exists []. simpl.
    split_and!; [done.. | constructor].
  - assert (h ≠ []) as Hne by (intros ->; done).
    destruct (extract_min_nonempty h Hne) as (m & h' & Hrun & Hroot & Hperm & Hord).
    assert (length h' = n) as Hlen'.
    { apply Permutation_length in Hperm. simpl in Hperm. lia. }
    destruct (IH h' Hlen' (Hord Hh)) as (vs & Hrun' & Hperm' & Hsorted).
    exists (m :: vs). simpl. rewrite Hrun. simpl. rewrite Hrun'. simpl.
    split_and!; [done | by rewrite Hperm, Hperm' |].
    constructor; [done|].
    apply Forall_forall. intros x Hx.
    apply (heap_ordered_root_min h m Hh Hroot).
    rewrite Hperm, <-Hperm'. by right.
Qed.

(** C1.  Heap sort: inserting any finite sequence of integers into a
    fresh heap and then calling [extract_min] once per inserted element
    returns exactly the inserted values (as a multiset), in non-decreasing
    order, and leaves the heap empty. *)
Theorem heap_sort_extract_sorted (keys : list Z) :
  ∃ h vs,
    insert_all [] keys = Some h ∧
    extract_many (length keys) h = Some (Some <$> vs, []) ∧
    vs ≡ₚ keys ∧ StronglySorted Z.le vs.
Proof.
  destruct (insert_all_correct keys []) as (h & Hrun & Hperm & Hord).
  rewrite app_nil_r in Hperm.
  destruct (extract_many_correct (length keys) h) as (vs & Hrun' & Hperm' & Hs).
  { by rewrite Hperm. }
  { apply Hord, heap_ordered_nil. }
  exists h, vs. split_and!; [done.. | by rewrite Hperm' | done].
Qed.

(** C2.  On the empty heap [extract_min] returns [None] and leaves the
    heap empty.  On a non-empty heap it returns the value at the root and
    removes one occurrence of it, the other values staying; when the heap
    is heap-ordered, the returned value is a minimum of the heap and the
    heap left is heap-ordered again. *)
Theorem extract_min_returns_root (h : list Z) :
  (h = [] → extract_min h = Some (None, [])) ∧
  (h ≠ [] →
   ∃ m h', extract_min h = Some (Some m, h') ∧
           h !! 0 = Some m ∧ h ≡ₚ m :: h' ∧
           (heap_ordered h →
            (∀ x, x ∈ h → (m ≤ x)%Z) ∧ heap_ordered h')).
Proof.
  split; [by intros -> |].
  intros Hne.
  destruct (extract_min_nonempty h Hne) as (m & h' & Hrun & Hroot & Hperm & Hord).
  exists m, h'. split_and!; [done..|].
  intros Hh. split; [by apply heap_ordered_root_min | by apply Hord].
Qed.

(** [extract_min_returns_root] at the heap built by the script, and at
    the empty heap. *)
Lemma extract_min_returns_root_witness :
  extract_min [] = Some (None, []) ∧
  ∃ h', extract_min [0; 2; 20; 10; 4]%Z = Some (Some 0%Z, h') ∧
        [0; 2; 20; 10; 4]%Z ≡ₚ 0%Z :: h' ∧
        (∀ x, x ∈ [0; 2; 20; 10; 4]%Z → (0 ≤ x)%Z) ∧ heap_ordered h'.
Proof.
  split.
  - apply (extract_min_returns_root []). reflexivity.
  - destruct (extract_min_returns_root [0; 2; 20; 10; 4]%Z) as [_ Hne].
    destruct Hne as (m & h' & Hrun & Hroot & Hperm & Hord); [discriminate|].
    assert (m = 0%Z) as -> by (simpl in Hroot; congruence).
    destruct Hord as [Hmin Hh']; [by apply heap_orderedb_correct|].
    by exists h'.
Defined.

End MinHeapSpec.

(** ** BST *)
Module BSTSpec.
Import BST.

(** The values under an optional child, in order. *)
Definition inorder_opt (node : option BST) : list Z :=
  from_option inorder [] node.

Lemma inorder_Node d l r :
  inorder (Node d l r) = inorder_opt l ++ [d] ++ inorder_opt r.
Proof. by destruct l, r. Qed.

(** Induction over a tree and its optional children. *)
Lemma BST_ind (P : BST → Prop) :
  (∀ d l r, from_option P True l → from_option P True r → P (Node d l r)) →
  ∀ t, P t.
Proof.
  intros step. fix IH 1. intros [d l r]. apply step.
  - destruct l as [l'|]; [exact (IH l') | exact I].
  - destruct r as [r'|]; [exact (IH r') | exact I].
Qed.

(** The search-tree order of the data model: the values on the left of a
    node are below its value, those on the right are above. *)
Fixpoint is_bst (t : BST) : Prop :=
  match t with
  | Node d l r =>
      (match l with
       | Some l' => (∀ x, x ∈ inorder l' → (x < d)%Z) ∧ is_bst l'
       | None => True
       end) ∧
      (match r with
       | Some r' => (∀ x, x ∈ inorder r' → (d < x)%Z) ∧ is_bst r'
       | None => True
       end)
  end.

Lemma sorted_around (L R : list Z) (d : Z) :
  StronglySorted Z.lt (L ++ [d] ++ R) ↔
  StronglySorted Z.lt L ∧ StronglySorted Z.lt R ∧
  (∀ x, x ∈ L → (x < d)%Z) ∧ (∀ x, x ∈ R → (d < x)%Z).
Proof.
  rewrite StronglySorted_app. simpl. rewrite StronglySorted_cons, Forall_forall.
  split.
  - intros (Hcross & HL & HdR & HR). split_and!; [done.. | | done].
    intros x Hx. apply (Hcross x d Hx). by left.
  - intros (HL & HR & HLd & HdR). split_and!; [|done..].
    intros x1 x2 Hx1 [->|Hx2]%elem_of_cons; [by apply HLd|].
    specialize (HLd x1 Hx1). specialize (HdR x2 Hx2). lia.
Qed.

Lemma is_bst_sorted t : is_bst t ↔ StronglySorted Z.lt (inorder t).
Proof.
  induction t as [d l r IHl IHr] using BST_ind.
  rewrite inorder_Node, sorted_around.
  destruct l as [l|], r as [r|]; simpl in *; rewrite ?IHl, ?IHr.
  all: split; intros; destruct_and?; split_and?; auto using SSorted_nil.
  all: by intros x ?%elem_of_nil.
Qed.

(** The values stored after [insert]: the old ones, and [data] unless it
    is zero. *)
Lemma elem_of_inorder_insert t data x :
  x ∈ inorder (insert t data) ↔ x ∈ inorder t ∨ (x = data ∧ data ≠ 0%Z).
Proof.
  induction t as [d l r IHl IHr] using BST_ind. simpl insert.
  destruct (Z.eqb_spec data 0) as [->|Hnz]; [naive_solver|].
  destruct (Z.eqb_spec d data) as [->|Hne].
  { rewrite inorder_Node. elem_of_norm. naive_solver. }
  destruct (Z.ltb_spec data d) as [Hlt|Hge].
  - destruct l as [l|]; rewrite !inorder_Node; simpl in *.
    + elem_of_norm. rewrite IHl. naive_solver.
    + elem_of_norm. naive_solver.
  - destruct r as [r|]; rewrite !inorder_Node; simpl in *.
    + elem_of_norm. rewrite IHr. naive_solver.
    + elem_of_norm. naive_solver.
Qed.

(** [insert] keeps the inorder sequence strictly ascending. *)
Lemma insert_sorted t data :
  StronglySorted Z.lt (inorder t) →
  StronglySorted Z.lt (inorder (insert t data)).
Proof.
  induction t as [d l r IHl IHr] using BST_ind. simpl insert.
  destruct (Z.eqb_spec data 0) as [->|Hnz]; [done|].
  destruct (Z.eqb_spec d data) as [->|Hne]; [done|].
  destruct (Z.ltb_spec data d) as [Hlt|Hge].
  - destruct l as [l|]; rewrite !inorder_Node, !sorted_around; simpl in *.
    + intros (HL & HR & HLd & HdR). split_and!; auto.
      intros x [Hx|[-> _]]%elem_of_inorder_insert; auto.
    + intros (HL & HR & HLd & HdR). split_and!; auto.
      * repeat constructor.
      * intros x ->%list_elem_of_singleton. done.
  - destruct r as [r|]; rewrite !inorder_Node, !sorted_around; simpl in *.
    + intros (HL & HR & HLd & HdR). split_and!; auto.
      intros x [Hx|[-> _]]%elem_of_inorder_insert; auto. lia.
    + intros (HL & HR & HLd & HdR). split_and!; auto.
      * repeat constructor.
      * intros x ->%list_elem_of_singleton. lia.
Qed.

Lemma insert_all_sorted values : ∀ t,
  StronglySorted Z.lt (inorder t) →
  StronglySorted Z.lt (inorder (insert_all t values)).
Proof.
  unfold insert_all.
  induction values as [|v values IH]; intros t Ht; simpl; [done|].
  by apply IH, insert_sorted.
Qed.

Lemma elem_of_inorder_insert_all values : ∀ t x,
  x ∈ inorder (insert_all t values) ↔
  x ∈ inorder t ∨ (x ∈ values ∧ x ≠ 0%Z).
Proof.
  unfold insert_all.
  induction values as [|v values IH]; intros t x; simpl.
  - elem_of_norm. naive_solver.
  - rewrite IH, elem_of_inorder_insert, elem_of_cons. naive_solver.
Qed.

(** Every tree that the class builds is a search tree. *)
Lemma is_bst_insert_all root values : is_bst (insert_all (new root) values).
Proof.
  apply is_bst_sorted, insert_all_sorted. simpl. repeat constructor.
Qed.

(** C3.  Starting from [BST(root)] with a nonzero root and inserting any
    sequence of nonzero values, the inorder traversal visits exactly the
    root and the inserted values, in strictly ascending order. *)
Theorem inorder_sorted_after_inserts (root : Z) (values : list Z) :
  root ≠ 0%Z → Forall (λ v, v ≠ 0%Z) values →
  StronglySorted Z.lt (inorder (insert_all (new root) values)) ∧
  ∀ x, x ∈ inorder (insert_all (new root) values) ↔ x = root ∨ x ∈ values.
Proof.
  intros _ Hnz. split.
  - apply insert_all_sorted. simpl. repeat constructor.
  - intros x. rewrite elem_of_inorder_insert_all. simpl.
    rewrite list_elem_of_singleton. rewrite Forall_forall in Hnz.
    naive_solver.
Qed.

(** C4.  [insert] of a zero value, or of a value already stored in a
    search tree, returns the tree unchanged. *)
Theorem insert_falsy_or_duplicate_noop (t : BST) (v : Z) :
  v = 0%Z ∨ (is_bst t ∧ v ∈ inorder t) → insert t v = t.
Proof.
  intros [->|[Hbst Hin]]; [by destruct t|].
  induction t as [d l r IHl IHr] using BST_ind. simpl insert.
  destruct (Z.eqb_spec v 0) as [->|Hnz]; [done|].
  destruct (Z.eqb_spec d v) as [->|Hne]; [done|].
  rewrite inorder_Node in Hin. simpl in Hbst.
  apply elem_of_app in Hin as [Hin|Hin]; [|apply elem_of_app in Hin as [Hin|Hin]].
  - destruct l as [l|]; simpl in *; [|by apply elem_of_nil in Hin].
    destruct Hbst as [[Hlt Hl] _].
    destruct (Z.ltb_spec v d) as [_|Hge]; [|specialize (Hlt v Hin); lia].
    by rewrite IHl.
  - apply list_elem_of_singleton in Hin. congruence.
  - destruct r as [r|]; simpl in *; [|by apply elem_of_nil in Hin].
    destruct Hbst as [_ [Hgt Hr]].
    destruct (Z.ltb_spec v d) as [Hlt|_]; [specialize (Hgt v Hin); lia|].
    by rewrite IHr.
Qed.

(** The tree built by the script at the end of [bst.py]. *)
Definition sample_tree : BST :=
  insert_all (new 21) [2; 4; 3; 5; 29; 11; 23; 5]%Z.

Example sample_inorder :
  inorder sample_tree = [2; 3; 4; 5; 11; 21; 23; 29]%Z.
Proof. reflexivity. Qed.

(** [inorder_sorted_after_inserts] at the script's inserts. *)
Lemma inorder_sorted_after_inserts_witness :
  StronglySorted Z.lt (inorder sample_tree) ∧
  ∀ x, x ∈ inorder sample_tree ↔
       x = 21%Z ∨ x ∈ [2; 4; 3; 5; 29; 11; 23; 5]%Z.
Proof.
  apply (inorder_sorted_after_inserts 21 [2; 4; 3; 5; 29; 11; 23; 5]%Z).
  - discriminate.
  - repeat constructor; discriminate.
Defined.

(** [insert_falsy_or_duplicate_noop] at the script's tree, for zero and
    for the value 5 that it already holds. *)
Lemma insert_falsy_or_duplicate_noop_witness :
  insert sample_tree 0 = sample_tree ∧ insert sample_tree 5 = sample_tree.
Proof.
  split.
  - apply insert_falsy_or_duplicate_noop. left. reflexivity.
  - apply insert_falsy_or_duplicate_noop. right. split.
    + apply is_bst_sorted. apply (bool_decide_unpack _). vm_compute. exact I.
    + apply (bool_decide_unpack _). vm_compute. exact I.
Defined.

End BSTSpec.

(** ** HashMap *)
Module HashMapSpec.
Import HashMap.

#[global] Instance pykey_eq_dec : EqDecision pykey.
Proof. solve_decision. Defined.

Lemma py_eqb_reflect a b : reflect (a = b) (py_eqb a b).
Proof.
  destruct a as [x|s], b as [y|t]; simpl; try (constructor; congruence).
  - destruct (Z.eqb_spec x y); constructor; congruence.
  - case_bool_decide; constructor; congruence.
Qed.

Section WithHash.
Variable hash : pykey → Z.
Variable V : Type.

Abbreviation HashMap := (HashMap.HashMap V).
Abbreviation chain := (HashMap.chain V).
Abbreviation _hash := (HashMap._hash hash V).
Abbreviation put := (HashMap.put hash V).
Abbreviation get := (HashMap.get hash V).
Abbreviation remove := (HashMap.remove hash V).
Abbreviation put_all := (HashMap.put_all hash V).
Abbreviation remove_all := (HashMap.remove_all hash V).
Abbreviation put_loop := (HashMap.put_loop V).
Abbreviation get_loop := (HashMap.get_loop V).
Abbreviation remove_loop := (HashMap.remove_loop V).

(** The nodes of a chain, from its head, as [(key, value)] pairs. *)
Fixpoint items (c : chain) : list (pykey * V) :=
  match c with
  | Nil => []
  | Node k v next => (k, v) :: items next
  end.

Definition keys (c : chain) : list pykey := (items c).*1.

(** The table as the constructor and the methods keep it: a positive
    bucket count and as many buckets. *)
Definition well_formed (m : HashMap) : Prop :=
  (0 < size m)%Z ∧ length (buckets m) = Z.to_nat (size m).

(** Every node sits in the bucket of its key, and no chain repeats a key. *)
Definition chains_ok (m : HashMap) : Prop :=
  ∀ i c, buckets m !! i = Some c →
    NoDup (keys c) ∧ ∀ k, k ∈ keys c → Z.to_nat (hash k mod size m) = i.

Definition stored (m : HashMap) (k : pykey) : Prop :=
  ∃ i c, buckets m !! i = Some c ∧ k ∈ keys c.

Lemma index_in_range (m : HashMap) key :
  well_formed m →
  (0 ≤ hash key mod size m < Z.of_nat (length (buckets m)))%Z.
Proof.
  intros [Hpos Hlen]. rewrite Hlen, Z2Nat.id by lia.
  by apply Z.mod_pos_bound.
Qed.

Lemma _hash_Some (m : HashMap) key :
  well_formed m → _hash m key = Some (hash key mod size m)%Z.
Proof.
  intros [Hpos _]. unfold HashMap._hash.
  destruct (Z.eqb_spec (size m) 0); [lia | done].
Qed.

(** In a well-formed table the bucket of a key exists. *)
Lemma bucket_lookup (m : HashMap) key :
  well_formed m →
  ∃ c, buckets m !! Z.to_nat (hash key mod size m) = Some c ∧
       py_getitem (buckets m) (hash key mod size m) = Some c.
Proof.
  intros Hwf. pose proof (index_in_range m key Hwf) as Hi.
  unfold py_getitem. rewrite py_position_in_range by done. simpl.
  destruct (lookup_lt_is_Some_2 (buckets m) (Z.to_nat (hash key mod size m)))
    as [c Hc]; [lia|]. eauto.
Qed.

Lemma bucket_update (m : HashMap) key c :
  well_formed m →
  py_setitem (buckets m) (hash key mod size m) c
  = Some (<[Z.to_nat (hash key mod size m) := c]> (buckets m)).
Proof.
  intros Hwf. pose proof (index_in_range m key Hwf) as Hi.
  unfold py_setitem. rewrite py_position_in_range by done. simpl.
  apply setitem_Some. lia.
Qed.

Lemma get_loop_first (c : chain) (index : Z) :
  get_loop c index
  = snd <$> head (filter (λ kv, kv.1 = KInt index) (items c)).
Proof.
  induction c as [|k v next IH]; simpl; [done|].
  destruct (py_eqb_reflect k (KInt index)) as [Heq|Hne].
  - by rewrite filter_cons_True.
  - by rewrite filter_cons_False.
Qed.

(** C5.  [get(key)] looks in the bucket at [hash(key) % size] and returns
    the value of the first node there whose stored key equals that bucket
    index (an [int]), not [key]; it returns [None] when the bucket has no
    such node. *)
Theorem get_compares_stored_key_with_index (m : HashMap) (key : pykey) :
  well_formed m →
  ∃ current,
    buckets m !! Z.to_nat (hash key mod size m) = Some current ∧
    get m key
    = Some (snd <$> head (filter (λ kv, kv.1 = KInt (hash key mod size m))
                                 (items current))).
Proof.
  intros Hwf. destruct (bucket_lookup m key Hwf) as (c & Hc & Hget).
  exists c. split; [done|].
  unfold HashMap.get. rewrite _hash_Some by done. simpl.
  rewrite Hget. simpl. by rewrite get_loop_first.
Qed.

(** *** The loops of [put] and [remove] on one chain *)

Lemma keys_Node k v (next : chain) : keys (Node k v next) = k :: keys next.
Proof. reflexivity. Qed.

Lemma put_loop_Some (c c' : chain) key value :
  put_loop c key value = Some c' → keys c' = keys c ∧ key ∈ keys c.
Proof.
  revert c'. induction c as [|k v next IH]; intros c'; simpl; [done|].
  destruct (py_eqb_reflect k key) as [->|Hne].
  - intros [= <-]. split; [done | by left].
  - destruct (put_loop next key value) as [next'|]; simpl; [|done].
    intros [= <-]. destruct (IH next' eq_refl) as [Hk Hin].
    rewrite !keys_Node, Hk. split; [done | by right].
Qed.

Lemma put_loop_None (c : chain) key value :
  put_loop c key value = None → key ∉ keys c.
Proof.
  induction c as [|k v next IH]; simpl; [intros _ []%elem_of_nil|].
  destruct (py_eqb_reflect k key) as [->|Hne]; [done|].
  destruct (put_loop next key value) as [next'|]; simpl; [done|].
  rewrite keys_Node. intros _ [?|?]%elem_of_cons; [done | by apply IH].
Qed.

Lemma remove_loop_Some (c c' : chain) key :
  remove_loop c key = Some c' → NoDup (keys c) →
  NoDup (keys c') ∧ ∀ x, x ∈ keys c' ↔ x ∈ keys c ∧ x ≠ key.
Proof.
  revert c'. induction c as [|k v next IH]; intros c'; simpl; [done|].
  rewrite keys_Node, NoDup_cons.
  destruct (py_eqb_reflect k key) as [->|Hne].
  - intros [= <-] [Hnotin Hnd]. split; [done|].
    intros x. rewrite elem_of_cons. naive_solver.
  - destruct (remove_loop next key) as [next'|]; simpl; [|done].
    intros [= <-] [Hnotin Hnd].
    destruct (IH next' eq_refl Hnd) as [Hnd' Hiff].
    rewrite keys_Node. split.
    + rewrite NoDup_cons. split; [|done]. rewrite Hiff. tauto.
    + intros x. rewrite !elem_of_cons, Hiff. naive_solver.
Qed.

Lemma remove_loop_None (c : chain) key :
  remove_loop c key = None → key ∉ keys c.
Proof.
  induction c as [|k v next IH]; simpl; [intros _ []%elem_of_nil|].
  destruct (py_eqb_reflect k key) as [->|Hne]; [done|].
  destruct (remove_loop next key) as [next'|]; simpl; [done|].
  rewrite keys_Node. intros _ [?|?]%elem_of_cons; [done | by apply IH].
Qed.

(** *** [put] and [remove] on the table *)

Lemma well_formed_new (sz : Z) : (0 < sz)%Z → well_formed (new sz).
Proof. intros Hsz. split; simpl; [done | by rewrite length_replicate]. Qed.

Lemma chains_ok_new (sz : Z) : chains_ok (new sz).
Proof.
  intros i c [-> _]%lookup_replicate. split; [constructor|].
  by intros k ?%elem_of_nil.
Qed.

Lemma not_stored_new (sz : Z) k : ¬ stored (new sz) k.
Proof.
  intros (i & c & [-> _]%lookup_replicate & Hin). by apply elem_of_nil in Hin.
Qed.

Lemma put_correct (m : HashMap) key value :
  well_formed m → chains_ok m →
  ∃ m', put m key value = Some m' ∧ well_formed m' ∧ chains_ok m' ∧
        size m' = size m ∧
        ∀ x, stored m' x → stored m x ∨ x = key.
Proof.
  intros Hwf Hok. pose proof (index_in_range m key Hwf) as Hi.
  destruct (bucket_lookup m key Hwf) as (c & Hc & Hget).
  unfold HashMap.put. rewrite _hash_Some by done. simpl.
  rewrite Hget. simpl.
  remember (Z.to_nat (hash key mod size m)) as i eqn:Hieq.
  destruct (Hok i c Hc) as [Hnd Hidx].
  assert (∀ c', (keys c' = keys c ∨ keys c' = key :: keys c ∧ key ∉ keys c) →
    let m' := mkHashMap (size m) (<[i := c']> (buckets m)) in
    well_formed m' ∧ chains_ok m' ∧ size m' = size m ∧
    ∀ x, stored m' x → stored m x ∨ x = key) as Hupd.
  { intros c' Hkeys m'. split_and!.
    - destruct Hwf as [Hpos Hlen]. split; simpl; [done|].
      by rewrite length_insert.
    - intros j cj. simpl. intros Hj.
      apply list_lookup_insert_Some in Hj as [(<- & <- & _)|[Hne Hj]].
      + destruct Hkeys as [->|[-> Hnotin]]; [by split|]. split.
        * by apply NoDup_cons.
        * intros k [->|Hk]%elem_of_cons; [done | by apply Hidx].
      + by apply Hok.
    - done.
    - intros x (j & cj & Hj & Hx). simpl in Hj.
      apply list_lookup_insert_Some in Hj as [(<- & <- & _)|[Hne Hj]].
      + destruct Hkeys as [Hk|[Hk Hnotin]]; rewrite Hk in Hx.
        * left. by exists i, c.
        * apply elem_of_cons in Hx as [->|Hx]; [by right|].
          left. by exists i, c.
      + left. by exists j, cj. }
  destruct (put_loop c key value) as [c'|] eqn:Hloop.
  - rewrite bucket_update by done. simpl. rewrite <-Hieq.
    eexists. split; [done|].
    apply Hupd. left. by apply put_loop_Some in Hloop as [-> _].
  - rewrite bucket_update by done. simpl. rewrite <-Hieq.
    eexists. split; [done|].
    apply Hupd. right. split; [done|]. by eapply put_loop_None.
Qed.

Lemma remove_correct (m : HashMap) key :
  well_formed m → chains_ok m →
  ∃ found m', remove m key = Some (found, m') ∧
        well_formed m' ∧ chains_ok m' ∧ size m' = size m ∧
        ∀ x, stored m' x → stored m x ∧ x ≠ key.
Proof.
  intros Hwf Hok. pose proof (index_in_range m key Hwf) as Hi.
  destruct (bucket_lookup m key Hwf) as (c & Hc & Hget).
  unfold HashMap.remove. rewrite _hash_Some by done. simpl.
  rewrite Hget. simpl.
  remember (Z.to_nat (hash key mod size m)) as i eqn:Hieq.
  destruct (Hok i c Hc) as [Hnd Hidx].
  destruct (remove_loop c key) as [c'|] eqn:Hloop.
  - rewrite bucket_update by done. simpl. rewrite <-Hieq.
    destruct (remove_loop_Some c c' key Hloop Hnd) as [Hnd' Hiff].
    eexists _, _. split; [done|]. split_and!.
    + destruct Hwf as [Hpos Hlen]. split; simpl; [done|].
      by rewrite length_insert.
    + intros j cj. simpl. intros Hj.
      apply list_lookup_insert_Some in Hj as [(<- & <- & _)|[Hne Hj]].
      * split; [done|]. intros k Hk%Hiff. apply Hidx. tauto.
      * by apply Hok.
    + done.
    + intros x (j & cj & Hj & Hx). simpl in Hj.
      apply list_lookup_insert_Some in Hj as [(<- & <- & _)|[Hne Hj]].
      * apply Hiff in Hx as [Hx Hxk]. split; [by exists i, c | done].
      * split; [by exists j, cj|]. intros ->.
        destruct (Hok j cj Hj) as [_ Hidxj]. apply Hidxj in Hx. congruence.
  - eexists _, _. split; [done|]. split_and!; [done..|].
    intros x (j & cj & Hj & Hx). split; [by exists j, cj|]. intros ->.
    destruct (Hok j cj Hj) as [_ Hidxj]. pose proof (Hidxj _ Hx) as Hji.
    rewrite <-Hieq in Hji. subst j. rewrite Hc in Hj. injection Hj as <-.
    by apply remove_loop_None in Hloop.
Qed.

Lemma put_all_correct items0 : ∀ m : HashMap,
  well_formed m → chains_ok m →
  ∃ m', put_all m items0 = Some m' ∧ well_formed m' ∧ chains_ok m' ∧
        size m' = size m ∧
        ∀ x, stored m' x → stored m x ∨ x ∈ items0.*1.
Proof.
  unfold HashMap.put_all.
  induction items0 as [|[k v] items0 IH]; intros m Hwf Hok; simpl.
  - exists m. split_and!; [done..|]. by left.
  - destruct (put_correct m k v Hwf Hok) as (m1 & -> & Hwf1 & Hok1 & Hsz1 & Hst1).
    simpl. destruct (IH m1 Hwf1 Hok1) as (m2 & Hrun & Hwf2 & Hok2 & Hsz2 & Hst2).
    exists m2. split_and!; [done.. | congruence |].
    intros x [Hx|Hx]%Hst2; [|right; by right].
    apply Hst1 in Hx as [Hx| ->]; [by left | right; by left].
Qed.

Lemma remove_all_correct ks : ∀ m : HashMap,
  well_formed m → chains_ok m →
  ∃ m', remove_all m ks = Some m' ∧ well_formed m' ∧ chains_ok m' ∧
        size m' = size m ∧
        ∀ x, stored m' x → stored m x ∧ x ∉ ks.
Proof.
  unfold HashMap.remove_all.
  induction ks as [|k ks IH]; intros m Hwf Hok; simpl.
  - exists m. split_and!; [done..|]. intros x Hx. split; [done|].
    by intros ?%elem_of_nil.
  - destruct (remove_correct m k Hwf Hok)
      as (found & m1 & -> & Hwf1 & Hok1 & Hsz1 & Hst1).
    simpl. destruct (IH m1 Hwf1 Hok1) as (m2 & Hrun & Hwf2 & Hok2 & Hsz2 & Hst2).
    exists m2. split_and!; [done.. | congruence |].
    intros x [Hx Hnotin]%Hst2. apply Hst1 in Hx as [Hx Hne].
    split; [done|]. rewrite elem_of_cons. tauto.
Qed.

Lemma nothing_stored_all_None (m : HashMap) :
  well_formed m → (∀ x, ¬ stored m x) →
  buckets m = replicate (Z.to_nat (size m)) Nil.
Proof.
  intros [Hpos Hlen] Hnone. apply list_eq. intros i.
  destruct (buckets m !! i) as [c|] eqn:Hc.
  - symmetry. apply lookup_replicate. split.
    + destruct c as [|k v next]; [done|].
      destruct (Hnone k). exists i, (Node k v next). split; [done | by left].
    + apply lookup_lt_Some in Hc. lia.
  - symmetry. apply lookup_ge_None. apply lookup_ge_None in Hc.
    rewrite length_replicate. lia.
Qed.

(** C6.  On a fresh table with a positive bucket count, [put] of any
    finite collection of keys (with any values) followed by [remove] of
    every inserted key runs without error and leaves every bucket [None]. *)
Theorem put_then_remove_all_empty
    (sz : Z) (items0 : list (pykey * V)) (ks : list pykey) :
  (0 < sz)%Z → (∀ k, k ∈ items0.*1 → k ∈ ks) →
  ∃ m1 m2,
    put_all (new sz) items0 = Some m1 ∧
    remove_all m1 ks = Some m2 ∧
    buckets m2 = replicate (Z.to_nat sz) Nil.
Proof.
  intros Hsz Hall.
  destruct (put_all_correct items0 (new sz))
    as (m1 & Hrun1 & Hwf1 & Hok1 & Hsz1 & Hst1);
    [by apply well_formed_new | apply chains_ok_new |].
  destruct (remove_all_correct ks m1 Hwf1 Hok1)
    as (m2 & Hrun2 & Hwf2 & Hok2 & Hsz2 & Hst2).
  exists m1, m2. split_and!; [done..|].
  replace sz with (size m2) by (rewrite Hsz2, Hsz1; done).
  apply nothing_stored_all_None; [done|].
  intros x [Hx Hnotin]%Hst2.
  apply Hst1 in Hx as [Hx|Hx]; [by apply not_stored_new in Hx|].
  by apply Hnotin, Hall.
Qed.

(** Without a positive bucket count no [put] succeeds: a zero count
    makes [%] raise, a negative one leaves no bucket to index. *)
Lemma put_nonpositive_size_raises (sz : Z) key value :
  (sz ≤ 0)%Z → put (new sz) key value = None.
Proof.
  intros Hsz. unfold HashMap.put, HashMap._hash. simpl.
  destruct (Z.eqb_spec sz 0) as [->|Hnz]; [done|]. simpl.
  replace (Z.to_nat sz) with 0 by lia. simpl.
  unfold py_getitem, py_position. simpl.
  rewrite !decide_False by lia. done.
Qed.

End WithHash.

(** *** A concrete table *)

(** CPython's [hash(n)] is [n] for a small [int]; for a [str] any value
    may come out, here the length. *)
Definition sample_hash (k : pykey) : Z :=
  match k with
  | KInt z => z
  | KStr s => Z.of_nat (String.length s)
  end.

(** Four buckets after [put(1, "one")] and [put(5, "five")]: both keys
    fall into bucket 1. *)
Definition sample_map : HashMap.HashMap string :=
  mkHashMap 4 [Nil; Node (KInt 5) "five" (Node (KInt 1) "one" Nil); Nil; Nil].

Example sample_map_built :
  HashMap.put_all sample_hash string (new 4)
    [(KInt 1, "one"%string); (KInt 5, "five"%string)] = Some sample_map.
Proof. reflexivity. Qed.

(** [get_compares_stored_key_with_index] at [sample_map]: [get(5)]
    yields the value stored under the key 1, the index of its bucket. *)
Lemma get_compares_stored_key_with_index_witness :
  well_formed string sample_map ∧
  HashMap.get sample_hash string sample_map (KInt 5) = Some (Some "one"%string).
Proof.
  assert (well_formed string sample_map) as Hwf by (split; [reflexivity..]).
  split; [done|].
  destruct (get_compares_stored_key_with_index
              sample_hash string sample_map (KInt 5) Hwf)
    as (current & Hcurrent & Hget).
  rewrite Hget. simpl in Hcurrent. injection Hcurrent as <-. reflexivity.
Defined.

(** [put_then_remove_all_empty] with three keys, removed in another
    order. *)
Lemma put_then_remove_all_empty_witness :
  ∃ m1 m2,
    HashMap.put_all sample_hash string (new 4)
      [(KInt 1, "one"); (KInt 5, "five"); (KStr "ab", "s")]%string = Some m1 ∧
    HashMap.remove_all sample_hash string m1 [KStr "ab"; KInt 5; KInt 1]
      = Some m2 ∧
    buckets m2 = [Nil; Nil; Nil; Nil].
Proof.
  apply (put_then_remove_all_empty sample_hash string 4).
  - reflexivity.
  - intros k. simpl. elem_of_norm. tauto.
Defined.

End HashMapSpec.

(** ** Graph *)
Module GraphSpec.
Import Graph.

Implicit Types g : gmap string (list string).

(** More recursion depth does not change a result already obtained. *)
Lemma get_all_paths_mono fuel : ∀ g start end_ path r fuel',
  get_all_paths fuel g start end_ path = Some r → (fuel ≤ fuel')%nat →
  get_all_paths fuel' g start end_ path = Some r.
Proof.
  induction fuel as [|fuel IH]; intros g start end_ path r fuel'; [done|].
  intros Hrun Hle. destruct fuel' as [|fuel']; [lia|].
  simpl in *. case_decide; [done|].
  destruct (g !! start) as [adj|]; [|done].
  destruct (length adj =? 0); [done|].
  revert Hrun. apply for_each_mono.
  intros temp node temp' _.
  destruct (get_all_paths fuel g node end_ (path ++ [start])) as [new|] eqn:Hnew;
    [|done].
  rewrite (IH _ _ _ _ _ fuel' Hnew) by lia. done.
Qed.

Lemma get_all_paths_deterministic fuel1 fuel2 g start end_ path r1 r2 :
  get_all_paths fuel1 g start end_ path = Some r1 →
  get_all_paths fuel2 g start end_ path = Some r2 → r1 = r2.
Proof.
  intros H1 H2.
  apply (get_all_paths_mono _ _ _ _ _ _ (fuel1 `max` fuel2)) in H1; [|lia].
  apply (get_all_paths_mono _ _ _ _ _ _ (fuel1 `max` fuel2)) in H2; [|lia].
  congruence.
Qed.

(** The dictionary built by the constructor from [routes]. *)
Lemma graph_dict_routes :
  graph = (<["Mumbai" := ["Paris"; "Dubai"]]>
          (<["Paris" := ["Dubai"; "New York"]]>
          (<["Dubai" := ["New York"]]>
          (<["New York" := ["Toronto"]]> ∅))))%string.
Proof. reflexivity. Qed.

(** The paths of the sample graph from Mumbai to New York. *)
Definition sample_paths : list (list string) :=
  [ ["Mumbai"; "Paris"; "Dubai"; "New York"];
    ["Mumbai"; "Paris"; "New York"];
    ["Mumbai"; "Dubai"; "New York"] ]%string.

Lemma get_all_paths_sample_run (fuel : nat) :
  get_all_paths (4 + fuel) graph "Mumbai" "New York" [] = Some sample_paths.
Proof.
  apply (get_all_paths_mono 4); [|lia]. by vm_compute.
Qed.

(** C7.  On the sample graph, with any recursion depth of at least four,
    [get_all_paths("Mumbai", "New York")] returns the three paths below,
    in this order, and nothing else. *)
Theorem get_all_paths_sample (fuel : nat) :
  get_all_paths (4 + fuel) graph "Mumbai" "New York" []
  = Some [ ["Mumbai"; "Paris"; "Dubai"; "New York"];
           ["Mumbai"; "Paris"; "New York"];
           ["Mumbai"; "Dubai"; "New York"] ]%string.
Proof. apply get_all_paths_sample_run. Qed.

(** C10.  With [start == end], [find_shortest_path] returns the empty
    list without enumerating any path (no recursion depth is needed),
    although [get_all_paths] returns the one-node path [[start]]. *)
Theorem find_shortest_path_same_node g (s : string) (fuel : nat) :
  find_shortest_path fuel g s s = Some [] ∧
  find_shortest_path 0 g s s = Some [] ∧
  get_all_paths (S fuel) g s s [] = Some [[s]].
Proof.
  unfold find_shortest_path. simpl. rewrite !decide_True by done. done.
Qed.

(** *** Absent or unreachable starts *)

(** [n] is adjacent to [s] in the dictionary. *)
Definition edge g (s n : string) : Prop :=
  ∃ adj, g !! s = Some adj ∧ n ∈ adj.

(** [e] can be reached from [s] along edges (in zero or more steps). *)
Definition reachable g : string → string → Prop := rtc (edge g).

(** No cycle can be reached from [start]: every edge that leaves a node
    reachable from [start] goes down in [rank]. *)
Definition ranked_from g (start : string) (rank : string → nat) : Prop :=
  ∀ s n, reachable g start s → edge g s n → rank n < rank s.

Lemma for_each_all_empty {A B} (xs : list A) (f : A → option (list B)) :
  (∀ x, x ∈ xs → f x = Some []) →
  for_each xs (λ temp x, new ← f x; Some (temp ++ new)) [] = Some [].
Proof.
  induction xs as [|x xs IH]; intros Hf; simpl; [done|].
  rewrite (Hf x) by (by left). simpl. apply IH.
  intros y Hy. apply Hf. by right.
Qed.

Lemma get_all_paths_absent g start end_ path fuel :
  start ≠ end_ → g !! start = None →
  get_all_paths (S fuel) g start end_ path = Some [].
Proof. intros Hne Hnone. simpl. rewrite decide_False by done. by rewrite Hnone. Qed.

Lemma get_all_paths_unreachable g start end_ rank fuel : ∀ s path,
  ranked_from g start rank → reachable g start s →
  rank s < fuel → ¬ reachable g s end_ →
  get_all_paths fuel g s end_ path = Some [].
Proof.
  induction fuel as [|fuel IH]; intros s path Hrank Hs Hfuel Hun; [lia|].
  simpl. rewrite decide_False by (intros ->; apply Hun, rtc_refl).
  destruct (g !! s) as [adj|] eqn:Hadj; [|done].
  destruct (length adj =? 0); [done|].
  apply for_each_all_empty. intros node Hnode.
  assert (edge g s node) as Hedge by (by exists adj).
  apply IH; [done | | |].
  - by eapply rtc_r.
  - specialize (Hrank _ _ Hs Hedge). lia.
  - intros Hreach. apply Hun. by eapply rtc_l.
Qed.

(** C8 (amended).  [get_all_paths(start, end)] returns the empty sequence
    when [start] differs from [end] and is absent from the adjacency
    dictionary, and when [end] is not reachable from [start] and no cycle
    is reachable from [start]. *)
Theorem get_all_paths_empty g (start end_ : string) (path : list string) :
  (start ≠ end_ ∧ g !! start = None) ∨
  (¬ reachable g start end_ ∧ ∃ rank, ranked_from g start rank) →
  ∃ fuel, ∀ fuel', fuel ≤ fuel' →
    get_all_paths fuel' g start end_ path = Some [].
Proof.
  intros [[Hne Hnone]|[Hun [rank Hrank]]].
  - exists 1. intros [|fuel'] Hle; [lia|]. by apply get_all_paths_absent.
  - exists (S (rank start)). intros fuel' Hle.
    apply (get_all_paths_unreachable g start end_ rank);
      [done | apply rtc_refl | lia | done].
Qed.

Lemma reachable_rank_le g rank (start s e : string) :
  ranked_from g start rank → reachable g start s → reachable g s e →
  rank e ≤ rank s.
Proof.
  intros Hrank Hs Hreach.
  induction Hreach as [s|s n e Hedge _ IH]; [done|].
  specialize (Hrank s n Hs Hedge).
  assert (reachable g start n) as Hn by (by eapply rtc_r).
  specialize (IH Hn). lia.
Qed.

(** A rank for the sample graph: the longest way left to Toronto. *)
Definition sample_rank (s : string) : nat :=
  if decide (s = "Mumbai"%string) then 4
  else if decide (s = "Paris"%string) then 3
  else if decide (s = "Dubai"%string) then 2
  else if decide (s = "New York"%string) then 1
  else 0.

Lemma ranked_sample start : ranked_from graph start sample_rank.
Proof.
  intros s n _ (adj & Hadj & Hn). rewrite graph_dict_routes in Hadj.
  repeat (apply lookup_insert_Some in Hadj as [[<- <-]|[_ Hadj]];
          [revert Hn; elem_of_norm; intros Hn; destruct_or?; subst;
           try done; vm_compute; lia|]).
  by rewrite lookup_empty in Hadj.
Qed.

(** [get_all_paths_empty] on the sample graph: from Toronto, which has
    no entry in the dictionary, and from Dubai to Paris, which cannot be
    reached. *)
Lemma get_all_paths_empty_witness :
  (∃ fuel, ∀ fuel', fuel ≤ fuel' →
     get_all_paths fuel' graph "Toronto" "Mumbai" [] = Some []) ∧
  (∃ fuel, ∀ fuel', fuel ≤ fuel' →
     get_all_paths fuel' graph "Dubai" "Paris" [] = Some []).
Proof.
  split; apply get_all_paths_empty.
  - left. split; [discriminate | reflexivity].
  - right. split.
    + intros Hreach%(reachable_rank_le _ sample_rank "Dubai");
        [| apply ranked_sample | apply rtc_refl].
      vm_compute in Hreach. lia.
    + exists sample_rank. apply ranked_sample.
Defined.

(** An absent start equal to the end: the one-node path is returned. *)
Lemma get_all_paths_absent_start_not_empty :
  graph !! "Toronto"%string = None ∧
  get_all_paths 1 graph "Toronto" "Toronto" [] = Some [["Toronto"%string]] ∧
  (∀ fuel, get_all_paths fuel graph "Toronto" "Toronto" [] ≠ Some []).
Proof.
  split_and!; [done..|].
  intros [|fuel]; [done|]. simpl. discriminate.
Qed.

(** On a cycle that does not lead to [end] the enumeration never ends. *)
Lemma get_all_paths_cycle_no_result (fuel : nat) :
  get_all_paths fuel (new [("A", "B"); ("B", "A")]%string) "A" "C" [] = None.
Proof.
  assert (∀ path,
    get_all_paths fuel (new [("A", "B"); ("B", "A")]%string) "A" "C" path = None ∧
    get_all_paths fuel (new [("A", "B"); ("B", "A")]%string) "B" "C" path = None)
    as H; [|apply H].
  induction fuel as [|fuel IH]; intros path; [done|].
  split; simpl.
  - change (new _ !! "A"%string) with (Some ["B"%string]). simpl.
    by rewrite (proj2 (IH _)).
  - change (new _ !! "B"%string) with (Some ["A"%string]). simpl.
    by rewrite (proj1 (IH _)).
Qed.

(** *** Selection of a shortest path *)

(** State of the selection loop once the paths at positions below [k]
    have been looked at. *)
Definition selected (ps : list (list string)) (k : nat)
    (st : option nat * option nat) : Prop :=
  match st.1 with
  | None => k = 0 ∧ st.2 = None
  | Some i =>
      ∃ p, ps !! i = Some p ∧ st.2 = Some (length p) ∧
           ∀ j q, j < k → ps !! j = Some q → length p ≤ length q
  end.

Lemma shortest_loop_from ps n : ∀ k st,
  k + n = length ps → selected ps k st →
  ∃ st',
    for_each (seq k n)
      (λ '(shortest_index, shortest_length) path_index,
         p ← ps !! path_index;
         if lt_inf (length p) shortest_length
         then Some (Some path_index, Some (length p))
         else Some (shortest_index, shortest_length))
      st = Some st' ∧
    selected ps (length ps) st'.
Proof.
  induction n as [|n IH]; intros k [si sl] Hlen Hsel; simpl.
  - exists (si, sl). split; [done|]. by replace (length ps) with k by lia.
  - destruct (lookup_lt_is_Some_2 ps k) as [p Hp]; [lia|].
    rewrite Hp. simpl.
    destruct (lt_inf (length p) sl) eqn:Hlt.
    + apply IH; [lia|]. unfold selected. simpl.
      exists p. split_and!; [done..|].
      intros j q Hj Hq. destruct (decide (j = k)) as [->|Hjk].
      { rewrite Hp in Hq. by injection Hq as <-. }
      unfold selected in Hsel. simpl in Hsel.
      destruct si as [i|]; [|lia].
      destruct Hsel as (p0 & Hp0 & -> & Hmin). simpl in Hlt.
      apply Nat.ltb_lt in Hlt.
      specialize (Hmin j q ltac:(lia) Hq). lia.
    + apply IH; [lia|]. unfold selected in *. simpl in *.
      destruct si as [i|].
      * destruct Hsel as (p0 & Hp0 & -> & Hmin). simpl in Hlt.
        apply Nat.ltb_ge in Hlt.
        exists p0. split_and!; [done..|].
        intros j q Hj Hq. destruct (decide (j = k)) as [->|Hjk].
        { rewrite Hp in Hq. by injection Hq as <-. }
        apply (Hmin j q); [lia | done].
      * destruct Hsel as [_ ->]. done.
Qed.

Lemma shortest_loop_correct ps :
  ps ≠ [] →
  ∃ i sl p, shortest_loop ps = Some (Some i, sl) ∧ ps !! i = Some p ∧
            ∀ q, q ∈ ps → length p ≤ length q.
Proof.
  intros Hne. unfold shortest_loop.
  destruct (shortest_loop_from ps (length ps) 0 (None, None))
    as ([si sl] & Hrun & Hsel); [done | by split |].
  unfold selected in Hsel. simpl in Hsel. destruct si as [i|].
  - destruct Hsel as (p & Hp & _ & Hmin).
    exists i, sl, p. split_and!; [done..|].
    intros q [j Hq]%list_elem_of_lookup.
    apply (Hmin j q); [|done]. by eapply lookup_lt_Some.
  - destruct Hsel as [Hlen _]. by apply nil_length_inv in Hlen.
Qed.

(** C9 (amended).  For [start] different from [end]: whenever the
    enumeration of [get_all_paths(start, end)] returns, [find_shortest_path]
    returns one of the enumerated paths of least length, or the empty list
    when none was enumerated.  On the sample graph the result for
    ("Mumbai", "New York") is Mumbai, Paris, New York, of length 3. *)
Theorem find_shortest_path_minimal :
  (∀ fuel g (start end_ : string) all_paths,
     start ≠ end_ →
     get_all_paths fuel g start end_ [] = Some all_paths →
     ∃ p, find_shortest_path fuel g start end_ = Some p ∧
          (all_paths = [] → p = []) ∧
          (all_paths ≠ [] →
           p ∈ all_paths ∧ ∀ q, q ∈ all_paths → length p ≤ length q)) ∧
  (∀ fuel, find_shortest_path (4 + fuel) graph "Mumbai" "New York"
           = Some ["Mumbai"; "Paris"; "New York"]%string).
Proof.
  split.
  - intros fuel g start end_ all_paths Hne Hrun.
    unfold find_shortest_path. rewrite decide_False by done.
    rewrite Hrun. simpl.
    destruct (Nat.eqb_spec (length all_paths) 0) as [Hz|Hnz]; simpl.
    + apply nil_length_inv in Hz as ->. exists []. by split_and!.
    + assert (all_paths ≠ []) as Hps by (by intros ->).
      destruct (shortest_loop_correct all_paths Hps)
        as (i & sl & p & -> & Hp & Hmin). simpl.
      exists p. split_and!; [done.. | |].
      * intros ->. done.
      * intros _. split; [|done]. by eapply list_elem_of_lookup_2.
  - intros fuel. unfold find_shortest_path.
    rewrite decide_False by done.
    rewrite (get_all_paths_sample_run fuel). by vm_compute.
Qed.

(** [find_shortest_path_minimal] on the sample graph. *)
Lemma find_shortest_path_minimal_witness :
  ∃ p, find_shortest_path 4 graph "Mumbai" "New York" = Some p ∧
       p ∈ sample_paths ∧ ∀ q, q ∈ sample_paths → length p ≤ length q.
Proof.
  destruct (proj1 find_shortest_path_minimal
              4 graph "Mumbai"%string "New York"%string sample_paths)
    as (p & Hrun & _ & Hmin); [discriminate | reflexivity |].
  exists p. split; [done|]. apply Hmin. discriminate.
Defined.

(** With [start == end] the empty list is returned although one path is
    enumerated. *)
Lemma find_shortest_path_same_node_not_enumerated :
  get_all_paths 1 graph "Mumbai" "Mumbai" [] = Some [["Mumbai"%string]] ∧
  find_shortest_path 1 graph "Mumbai" "Mumbai" = Some [] ∧
  [] ∉ [["Mumbai"%string]].
Proof.
  split_and!; [done..|]. by intros ?%list_elem_of_singleton.
Qed.

End GraphSpec.

(** * Further properties of the four files *)

(** ** MinHeap: the index functions, [insert] and repeated [extract_min] *)
Module MinHeapExtra.
Import MinHeap MinHeapSpec.

(** X1.  [parent] undoes [leftChild] and [rightChild]; it never goes up
    in the array, and the root is the only position that is its own
    parent (the [index < 3] guard keeps [parent(0)] at 0). *)
Theorem parent_inverts_children (i : nat) :
  parent (leftChild i) = i ∧ parent (rightChild i) = i ∧
  parent i ≤ i ∧ (parent i = i ↔ i = 0).
Proof.
  split_and!.
  - apply parent_children; [unfold leftChild; lia | by left].
  - apply parent_children; [unfold rightChild; lia | by right].
  - destruct i; [done|]. pose proof (parent_lt (S i)). lia.
  - destruct i; [done|]. pose proof (parent_lt (S i)). lia.
Qed.

(** X2.  [insert] always returns; the heap afterwards holds the old
    values and [key], one more item than before, and is heap-ordered if
    it was. *)
Theorem insert_adds_key (h : list Z) (key : Z) :
  ∃ h', insert h key = Some h' ∧ h' ≡ₚ key :: h ∧
        length h' = S (length h) ∧ (heap_ordered h → heap_ordered h').
Proof.
  destruct (insert_correct h key) as (h' & Hrun & Hperm & Hord).
  exists h'. split_and!; [done.. | | done].
  by rewrite Hperm.
Qed.

(** X3.  After the keys of a non-empty list were inserted into an empty
    heap, position 0 holds a least one of them. *)
Theorem insert_all_root_is_min (keys : list Z) :
  keys ≠ [] →
  ∃ h m, insert_all [] keys = Some h ∧ h !! 0 = Some m ∧
         m ∈ keys ∧ ∀ x, x ∈ keys → (m ≤ x)%Z.
Proof.
  intros Hne.
  destruct (insert_all_correct keys []) as (h & Hrun & Hperm & Hord).
  rewrite app_nil_r in Hperm.
  destruct h as [|m h].
  { apply Permutation_nil_l in Hperm. done. }
  exists (m :: h), m. split_and!; [done.. | |].
  - rewrite <-Hperm. by left.
  - intros x Hx. apply (heap_ordered_root_min (m :: h)); [|done|].
    + apply Hord, heap_ordered_nil.
    + by rewrite Hperm.
Qed.

(** X4.  On a heap-ordered list, [insert(key)] followed by
    [extract_min()] returns the smaller of [key] and the old root ([key]
    on an empty heap), and leaves a heap-ordered list with the other
    values. *)
Theorem insert_then_extract_min (h : list Z) (key : Z) :
  heap_ordered h →
  ∃ h1 h2,
    insert h key = Some h1 ∧
    extract_min h1 = Some (Some (from_option (Z.min key) key (h !! 0)), h2) ∧
    key :: h ≡ₚ from_option (Z.min key) key (h !! 0) :: h2 ∧
    heap_ordered h2.
Proof.
  intros Hh.
  destruct (insert_correct h key) as (h1 & Hrun1 & Hperm1 & Hord1).
  assert (h1 ≠ []) as Hne.
  { intros ->. by apply Permutation_nil_l in Hperm1. }
  destruct (extract_min_nonempty h1 Hne) as (m & h2 & Hrun2 & Hroot & Hperm2 & Hord2).
  pose proof (heap_ordered_root_min h1 m (Hord1 Hh) Hroot) as Hmin.
  assert (m = from_option (Z.min key) key (h !! 0)) as <-.
  { assert (m ∈ key :: h) as Hm.
    { rewrite <-Hperm1. by eapply list_elem_of_lookup_2. }
    assert (m ≤ key)%Z as Hmk by (apply Hmin; rewrite Hperm1; by left).
    destruct h as [|r h]; simpl.
    - apply list_elem_of_singleton in Hm. done.
    - assert (m ≤ r)%Z as Hmr by (apply Hmin; rewrite Hperm1; right; by left).
      apply elem_of_cons in Hm as [->|Hm]; [lia|].
      pose proof (heap_ordered_root_min (r :: h) r Hh eq_refl m Hm). lia. }
  exists h1, h2. split_and!; [done.. | | by auto].
  by rewrite <-Hperm1, Hperm2.
Qed.

Lemma extract_many_empty k : extract_many k [] = Some (replicate k None, []).
Proof. induction k as [|k IH]; simpl; [done|]. by rewrite IH. Qed.

Lemma extract_many_add n k : ∀ h,
  extract_many (n + k) h =
    '(rs, h') ← extract_many n h;
    '(rs', h'') ← extract_many k h';
    Some (rs ++ rs', h'').
Proof.
  induction n as [|n IH]; intros h; simpl.
  - by destruct (extract_many k h) as [[rs' h'']|].
  - destruct (extract_min h) as [[r h1]|]; simpl; [|done].
    rewrite IH. destruct (extract_many n h1) as [[rs h']|]; simpl; [|done].
    by destruct (extract_many k h') as [[rs' h'']|].
Qed.

(** X5.  Calling [extract_min] more often than the heap has items
    returns the items in non-decreasing order, then [None] for every
    further call, and leaves the heap empty. *)
Theorem extract_beyond_empty (h : list Z) (k : nat) :
  heap_ordered h →
  ∃ vs, extract_many (length h + k) h
          = Some ((Some <$> vs) ++ replicate k None, []) ∧
        vs ≡ₚ h ∧ StronglySorted Z.le vs.
Proof.
  intros Hh.
  destruct (extract_many_correct (length h) h eq_refl Hh) as (vs & Hrun & Hperm & Hs).
  exists vs. split_and!; [|done..].
  rewrite extract_many_add, Hrun. simpl. by rewrite extract_many_empty.
Qed.
(** [insert_all_root_is_min] at the script's keys. *)
Lemma insert_all_root_is_min_witness :
  ∃ h m, insert_all [] [10; 4; 20; 0; 2]%Z = Some h ∧ h !! 0 = Some m ∧
         m ∈ [10; 4; 20; 0; 2]%Z ∧ ∀ x, x ∈ [10; 4; 20; 0; 2]%Z → (m ≤ x)%Z.
Proof. apply (insert_all_root_is_min [10; 4; 20; 0; 2]%Z). discriminate. Defined.

(** [insert_then_extract_min] at the script's heap and the key 1. *)
Lemma insert_then_extract_min_witness :
  ∃ h1 h2,
    insert [0; 2; 20; 10; 4]%Z 1 = Some h1 ∧
    extract_min h1 = Some (Some 0%Z, h2) ∧
    [1; 0; 2; 20; 10; 4]%Z ≡ₚ 0%Z :: h2 ∧ heap_ordered h2.
Proof.
  apply (insert_then_extract_min [0; 2; 20; 10; 4]%Z 1).
  by apply heap_orderedb_correct.
Defined.

(** [extract_beyond_empty] at the script's heap, with two calls more. *)
Lemma extract_beyond_empty_witness :
  ∃ vs, extract_many 7 [0; 2; 20; 10; 4]%Z
          = Some ((Some <$> vs) ++ [None; None], []) ∧
        vs ≡ₚ [0; 2; 20; 10; 4]%Z ∧ StronglySorted Z.le vs.
Proof.
  apply (extract_beyond_empty [0; 2; 20; 10; 4]%Z 2).
  by apply heap_orderedb_correct.
Defined.

End MinHeapExtra.

(** ** BST: [search] and [preorder] *)
Module BSTExtra.
Import BST BSTSpec.

(** *** [search], [preorder] and how they compose with [insert] *)

Definition search_opt (node : option BST) (data : Z) : bool :=
  from_option (λ n, search n data) false node.

Definition preorder_opt (node : option BST) : list Z :=
  from_option preorder [] node.

Lemma search_Node d l r data :
  search (Node d l r) data =
    if (data =? d)%Z then true
    else if (data <? d)%Z then search_opt l data
    else search_opt r data.
Proof. by destruct l, r. Qed.

Lemma preorder_Node d l r :
  preorder (Node d l r) = d :: preorder_opt l ++ preorder_opt r.
Proof. by destruct l, r. Qed.

Lemma search_sound t data : search t data = true → data ∈ inorder t.
Proof.
  induction t as [d l r IHl IHr] using BST_ind.
  rewrite search_Node, inorder_Node.
  destruct (Z.eqb_spec data d) as [->|Hne]; [intros _; elem_of_norm; tauto|].
  destruct (Z.ltb_spec data d) as [Hlt|Hge].
  - destruct l as [l|]; simpl in *; [|done].
    intros H%IHl. elem_of_norm. tauto.
  - destruct r as [r|]; simpl in *; [|done].
    intros H%IHr. elem_of_norm. tauto.
Qed.

Lemma search_complete t data :
  is_bst t → data ∈ inorder t → search t data = true.
Proof.
  induction t as [d l r IHl IHr] using BST_ind.
  rewrite search_Node, inorder_Node. simpl is_bst.
  intros [Hl Hr] Hin.
  destruct (Z.eqb_spec data d) as [->|Hne]; [done|].
  revert Hin. elem_of_norm. intros [Hin|[[Hin|[]]|Hin]]; [|done|].
  - destruct l as [l|]; simpl in *; [|by apply elem_of_nil in Hin].
    destruct Hl as [Hlt Hl].
    destruct (Z.ltb_spec data d) as [_|Hge]; [by apply IHl|].
    specialize (Hlt _ Hin). lia.
  - destruct r as [r|]; simpl in *; [|by apply elem_of_nil in Hin].
    destruct Hr as [Hgt Hr].
    destruct (Z.ltb_spec data d) as [Hlt|_]; [|by apply IHr].
    specialize (Hgt _ Hin). lia.
Qed.

(** X6.  On a search tree, [search(data)] is [True] exactly when [data]
    is one of the stored values. *)
Theorem search_iff_stored (t : BST) (data : Z) :
  is_bst t → (search t data = true ↔ data ∈ inorder t).
Proof.
  intros Hbst. split; [apply search_sound | by apply search_complete].
Qed.

(** X7.  [insert] keeps a search tree a search tree; a nonzero value is
    found by [search] right after its [insert], and the answer of
    [search] for any other value is unchanged. *)
Theorem insert_keeps_bst_and_search (t : BST) (v w : Z) :
  is_bst t →
  is_bst (insert t v) ∧
  (v ≠ 0%Z → search (insert t v) v = true) ∧
  (w ≠ v → search (insert t v) w = search t w).
Proof.
  intros Hbst.
  assert (is_bst (insert t v)) as Hbst'.
  { apply is_bst_sorted, insert_sorted. by apply is_bst_sorted. }
  split_and!; [done | |].
  - intros Hnz. apply search_complete; [done|].
    apply elem_of_inorder_insert. tauto.
  - intros Hne. apply eq_true_iff_eq. split; intros Hs.
    + apply search_sound, elem_of_inorder_insert in Hs as [Hs|[-> _]]; [|done].
      by apply search_complete.
    + apply search_complete; [done|]. apply elem_of_inorder_insert.
      left. by apply search_sound.
Qed.

(** X8.  In a tree built from a nonzero root, [search(0)] is [False]
    whatever was inserted, zeros included: [insert] drops them. *)
Theorem search_zero_not_found (root : Z) (values : list Z) :
  root ≠ 0%Z → search (insert_all (new root) values) 0 = false.
Proof.
  intros Hroot. apply not_true_is_false. intros Hs%search_sound.
  apply elem_of_inorder_insert_all in Hs as [Hs|[_ Hs]]; [|done].
  simpl in Hs. apply list_elem_of_singleton in Hs. done.
Qed.

Lemma preorder_inorder_Permutation t : preorder t ≡ₚ inorder t.
Proof.
  induction t as [d l r IHl IHr] using BST_ind.
  rewrite preorder_Node, inorder_Node.
  assert (preorder_opt l ≡ₚ inorder_opt l) as -> by (by destruct l).
  assert (preorder_opt r ≡ₚ inorder_opt r) as -> by (by destruct r).
  simpl. by rewrite Permutation_middle.
Qed.

(** X9.  [preorder] prints the value of the node first, and prints the
    same values as [inorder], each as often. *)
Theorem preorder_root_first (d : Z) (l r : option BST) :
  head (preorder (Node d l r)) = Some d ∧
  preorder (Node d l r) ≡ₚ inorder (Node d l r).
Proof.
  split; [by rewrite preorder_Node | apply preorder_inorder_Permutation].
Qed.

(** The child slot after [insert] of a nonzero value went into it. *)
Definition insert_opt (node : option BST) (v : Z) : option BST :=
  match node with
  | Some n => Some (insert n v)
  | None => Some (new v)
  end.

Lemma foldl_insert_left d l r xs :
  Forall (λ x, (x ≠ 0 ∧ x < d)%Z) xs →
  foldl insert (Node d l r) xs = Node d (foldl insert_opt l xs) r.
Proof.
  revert l. induction xs as [|x xs IH]; intros l Hxs; [done|].
  apply Forall_cons in Hxs as [[Hnz Hlt] Hxs]. simpl foldl at 1 2.
  rewrite <-IH by done. f_equal. simpl insert.
  destruct (Z.eqb_spec x 0); [done|].
  destruct (Z.eqb_spec d x); [lia|].
  destruct (Z.ltb_spec x d); [|lia]. by destruct l.
Qed.

Lemma foldl_insert_right d l r xs :
  Forall (λ x, (x ≠ 0 ∧ d < x)%Z) xs →
  foldl insert (Node d l r) xs = Node d l (foldl insert_opt r xs).
Proof.
  revert r. induction xs as [|x xs IH]; intros r Hxs; [done|].
  apply Forall_cons in Hxs as [[Hnz Hlt] Hxs]. simpl foldl at 1 2.
  rewrite <-IH by done. f_equal. simpl insert.
  destruct (Z.eqb_spec x 0); [done|].
  destruct (Z.eqb_spec d x); [lia|].
  destruct (Z.ltb_spec x d); [lia|]. by destruct r.
Qed.

Lemma foldl_insert_opt_Some t xs :
  foldl insert_opt (Some t) xs = Some (foldl insert t xs).
Proof. revert t. induction xs as [|x xs IH]; intros t; simpl; [done | apply IH]. Qed.

Lemma rebuild_subtree (o : option BST) :
  from_option (λ t, ∀ d rest, preorder t = d :: rest →
                 foldl insert (new d) rest = t) True o →
  foldl insert_opt None (preorder_opt o) = o.
Proof.
  destruct o as [t|]; simpl; [|done]. intros IH.
  destruct (preorder t) as [|d rest] eqn:Hpre.
  { destruct t as [? [] []]; done. }
  simpl. rewrite foldl_insert_opt_Some. f_equal. by apply IH.
Qed.

(** X10.  Round trip: inserting the preorder output of a search tree,
    in this order, into a new tree over its first value builds the same
    tree again, provided no value below the root is zero. *)
Theorem rebuild_from_preorder (t : BST) (d : Z) (rest : list Z) :
  is_bst t → preorder t = d :: rest → 0%Z ∉ rest →
  insert_all (new d) rest = t.
Proof.
  unfold insert_all. revert d rest.
  induction t as [d0 l r IHl IHr] using BST_ind.
  intros d rest Hbst Hpre Hnz. rewrite preorder_Node in Hpre.
  injection Hpre as <- <-. simpl in Hbst. destruct Hbst as [Hl Hr].
  rewrite foldl_app. unfold new.
  assert ((0%Z ∉ preorder_opt l) ∧ (0%Z ∉ preorder_opt r)) as [Hnzl Hnzr].
  { revert Hnz. elem_of_norm. tauto. }
  rewrite foldl_insert_left.
  2:{ apply Forall_forall. intros x Hx. split; [by intros ->|].
      destruct l as [l|]; simpl in *; [|by apply elem_of_nil in Hx].
      apply Hl. by rewrite <-preorder_inorder_Permutation. }
  rewrite foldl_insert_right.
  2:{ apply Forall_forall. intros x Hx. split; [by intros ->|].
      destruct r as [r|]; simpl in *; [|by apply elem_of_nil in Hx].
      apply Hr. by rewrite <-preorder_inorder_Permutation. }
  f_equal.
  - apply rebuild_subtree. destruct l as [l|]; simpl in *; [|done].
    intros d rest Hpre. apply IHl; [tauto | done |].
    rewrite Hpre in Hnzl. revert Hnzl. elem_of_norm. tauto.
  - apply rebuild_subtree. destruct r as [r|]; simpl in *; [|done].
    intros d rest Hpre. apply IHr; [tauto | done |].
    rewrite Hpre in Hnzr. revert Hnzr. elem_of_norm. tauto.
Qed.
(** [search_iff_stored] at the script's tree. *)
Lemma search_iff_stored_witness :
  search sample_tree 23 = true ↔ 23%Z ∈ inorder sample_tree.
Proof. apply search_iff_stored. apply is_bst_insert_all. Defined.

(** [insert_keeps_bst_and_search] at the script's tree. *)
Lemma insert_keeps_bst_and_search_witness :
  is_bst (insert sample_tree 7) ∧
  (7 ≠ 0 → search (insert sample_tree 7) 7 = true)%Z ∧
  (23 ≠ 7 → search (insert sample_tree 7) 23 = search sample_tree 23)%Z.
Proof. apply insert_keeps_bst_and_search. apply is_bst_insert_all. Defined.

(** [search_zero_not_found] with zeros among the inserted values. *)
Lemma search_zero_not_found_witness :
  search (insert_all (new 21) [0; 2; 0]%Z) 0 = false.
Proof. apply search_zero_not_found. discriminate. Defined.

(** [rebuild_from_preorder] at the script's tree. *)
Lemma rebuild_from_preorder_witness :
  preorder sample_tree = [21; 2; 4; 3; 5; 11; 29; 23]%Z ∧
  insert_all (new 21) [2; 4; 3; 5; 11; 29; 23]%Z = sample_tree.
Proof.
  split; [reflexivity|].
  apply rebuild_from_preorder.
  - apply is_bst_insert_all.
  - reflexivity.
  - apply (bool_decide_unpack _). vm_compute. exact I.
Defined.

End BSTExtra.

(** ** HashMap: what [put], [remove] and [get] do to the stored entries *)
Module HashMapExtra.
Import HashMap HashMapSpec.
Section WithHash.
Variable hash : pykey → Z.
Variable V : Type.

Abbreviation HashMap := (HashMap.HashMap V).
Abbreviation chain := (HashMap.chain V).
Abbreviation put := (HashMap.put hash V).
Abbreviation get := (HashMap.get hash V).
Abbreviation remove := (HashMap.remove hash V).
Abbreviation put_loop := (HashMap.put_loop V).
Abbreviation get_loop := (HashMap.get_loop V).
Abbreviation remove_loop := (HashMap.remove_loop V).
Abbreviation items := (HashMapSpec.items V).
Abbreviation keys := (HashMapSpec.keys V).
Abbreviation well_formed := (HashMapSpec.well_formed V).
Abbreviation chains_ok := (HashMapSpec.chains_ok hash V).

(** *** What the table holds under a key *)

(** The value of the first node with key [k] in a chain. *)
Definition chain_entry (k : pykey) (c : chain) : option V :=
  snd <$> head (filter (λ kv, kv.1 = k) (items c)).

(** The value the table holds under [k]: the one a [get] that compared
    keys would return. *)
Definition entry (m : HashMap) (k : pykey) : option V :=
  c ← buckets m !! Z.to_nat (hash k mod size m); chain_entry k c.

Lemma chain_entry_Node k k' v (next : chain) :
  chain_entry k (Node k' v next) =
    if decide (k' = k) then Some v else chain_entry k next.
Proof.
  unfold chain_entry. simpl. case_decide.
  - by rewrite filter_cons_True.
  - by rewrite filter_cons_False.
Qed.

Lemma chain_entry_None k (c : chain) : chain_entry k c = None ↔ k ∉ keys c.
Proof.
  induction c as [|k' v next IH].
  - split; [intros _ []%elem_of_nil | done].
  - rewrite chain_entry_Node, keys_Node, not_elem_of_cons.
    case_decide; [naive_solver|]. rewrite IH. naive_solver.
Qed.

Lemma put_loop_entry (c c' : chain) key value k :
  put_loop c key value = Some c' →
  chain_entry k c' = if decide (k = key) then Some value else chain_entry k c.
Proof.
  revert c'. induction c as [|k0 v next IH]; intros c'; simpl; [done|].
  destruct (py_eqb_reflect k0 key) as [->|Hne].
  - intros [= <-]. rewrite !chain_entry_Node. repeat case_decide; congruence.
  - destruct (put_loop next key value) as [next'|]; simpl; [|done].
    intros [= <-]. rewrite !chain_entry_Node, (IH next' eq_refl).
    repeat case_decide; congruence.
Qed.

Lemma remove_loop_entry (c c' : chain) key k :
  remove_loop c key = Some c' → NoDup (keys c) →
  chain_entry k c' = if decide (k = key) then None else chain_entry k c.
Proof.
  revert c'. induction c as [|k0 v next IH]; intros c'; simpl; [done|].
  rewrite keys_Node, NoDup_cons.
  destruct (py_eqb_reflect k0 key) as [->|Hne].
  - intros [= <-] [Hnotin Hnd]. rewrite chain_entry_Node.
    repeat case_decide; try congruence. subst. by apply chain_entry_None.
  - destruct (remove_loop next key) as [next'|]; simpl; [|done].
    intros [= <-] [Hnotin Hnd]. rewrite !chain_entry_Node, (IH next' eq_refl Hnd).
    repeat case_decide; congruence.
Qed.

Lemma get_loop_entry (c : chain) (index : Z) :
  get_loop c index = chain_entry (KInt index) c.
Proof. apply get_loop_first. Qed.

Lemma entry_insert_bucket (m : HashMap) key c k :
  well_formed m →
  entry (mkHashMap (size m) (<[Z.to_nat (hash key mod size m) := c]> (buckets m))) k
  = if decide (Z.to_nat (hash k mod size m) = Z.to_nat (hash key mod size m))
    then chain_entry k c else entry m k.
Proof.
  intros Hwf. unfold entry. simpl.
  pose proof (index_in_range hash V m key Hwf) as Hi.
  case_decide as Heq.
  - rewrite Heq, list_lookup_insert_eq by lia. done.
  - by rewrite list_lookup_insert_ne.
Qed.

Lemma put_entry (m : HashMap) (key : pykey) (value : V) :
  well_formed m →
  ∃ m', put m key value = Some m' ∧
        size m' = size m ∧ length (buckets m') = length (buckets m) ∧
        (chains_ok m → chains_ok m') ∧
        ∀ k, entry m' k = if decide (k = key) then Some value else entry m k.
Proof.
  intros Hwf.
  destruct (bucket_lookup hash V m key Hwf) as (c & Hc & Hget).
  pose proof (index_in_range hash V m key Hwf) as Hi.
  assert (∀ c', (∀ k, chain_entry k c'
                  = if decide (k = key) then Some value else chain_entry k c) →
    ∀ k, entry (mkHashMap (size m) (<[Z.to_nat (hash key mod size m) := c']> (buckets m))) k
         = if decide (k = key) then Some value else entry m k) as Hentry.
  { intros c' Hc' k. rewrite entry_insert_bucket by done.
    case_decide as Heq.
    - rewrite Hc'. case_decide; [done|]. unfold entry. by rewrite Heq, Hc.
    - case_decide; [|done]. by subst. }
  unfold HashMap.put. rewrite _hash_Some by done. simpl. rewrite Hget. simpl.
  destruct (put_loop c key value) as [c'|] eqn:Hloop;
    rewrite bucket_update by done; simpl; eexists; (split; [done|]);
    simpl; rewrite length_insert; split_and!; try done.
  - intros Hok. 
    destruct (put_correct hash V m key value Hwf Hok) as (m' & Hrun & _ & Hok' & _).
    unfold HashMap.put in Hrun. rewrite _hash_Some in Hrun by done. simpl in Hrun.
    rewrite Hget in Hrun. simpl in Hrun. rewrite Hloop, bucket_update in Hrun by done.
    simpl in Hrun. by injection Hrun as <-.
  - apply Hentry. intros k. by apply put_loop_entry.
  - intros Hok. 
    destruct (put_correct hash V m key value Hwf Hok) as (m' & Hrun & _ & Hok' & _).
    unfold HashMap.put in Hrun. rewrite _hash_Some in Hrun by done. simpl in Hrun.
    rewrite Hget in Hrun. simpl in Hrun. rewrite Hloop, bucket_update in Hrun by done.
    simpl in Hrun. by injection Hrun as <-.
  - apply Hentry. intros k. by rewrite chain_entry_Node; case_decide; case_decide; congruence.
Qed.

(** X11.  In a well-formed table [put(key, value)] returns; afterwards
    the table holds [value] under [key] and what it held under every
    other key; the bucket count is unchanged, and the chains stay free of
    repeated and misplaced keys. *)
Theorem put_sets_entry (m : HashMap) (key : pykey) (value : V) :
  well_formed m →
  ∃ m', put m key value = Some m' ∧
        size m' = size m ∧ length (buckets m') = length (buckets m) ∧
        (chains_ok m → chains_ok m') ∧
        ∀ k, entry m' k = if decide (k = key) then Some value else entry m k.
Proof. apply put_entry. Qed.

(** X12.  [remove] of a key that the table does not hold returns [False]
    and leaves the table as it is. *)
Theorem remove_absent_key (m : HashMap) (key : pykey) :
  well_formed m → entry m key = None → remove m key = Some (false, m).
Proof.
  intros Hwf Hentry.
  destruct (bucket_lookup hash V m key Hwf) as (c & Hc & Hget).
  unfold HashMap.remove. rewrite _hash_Some by done. simpl. rewrite Hget. simpl.
  unfold entry in Hentry. rewrite Hc in Hentry. simpl in Hentry.
  apply chain_entry_None in Hentry.
  destruct (remove_loop c key) as [c'|] eqn:Hloop; [|done].
  assert (key ∈ keys c); [|done].
  clear -Hloop. revert c' Hloop.
  induction c as [|k v next IH]; intros c'; simpl; [done|].
  rewrite keys_Node. destruct (py_eqb_reflect k key) as [->|Hne]; [by left|].
  destruct (remove_loop next key) as [next'|]; simpl; [|done].
  intros _. right. by eapply IH.
Qed.

(** X13.  [remove] of a key that the table holds returns [True]; the
    table then holds nothing under that key and the same as before under
    every other key. *)
Theorem remove_clears_entry (m : HashMap) (key : pykey) :
  well_formed m → chains_ok m → is_Some (entry m key) →
  ∃ m', remove m key = Some (true, m') ∧
        size m' = size m ∧ length (buckets m') = length (buckets m) ∧
        chains_ok m' ∧
        ∀ k, entry m' k = if decide (k = key) then None else entry m k.
Proof.
  intros Hwf Hok Hsome.
  destruct (bucket_lookup hash V m key Hwf) as (c & Hc & Hget).
  pose proof (index_in_range hash V m key Hwf) as Hi.
  destruct (remove_correct hash V m key Hwf Hok)
    as (found & m' & Hrun & _ & Hok' & _).
  revert Hrun.
  unfold HashMap.remove. rewrite _hash_Some by done. simpl. rewrite Hget. simpl.
  destruct (remove_loop c key) as [c'|] eqn:Hloop.
  - rewrite bucket_update by done. simpl. intros [= <- <-].
    eexists. split; [done|]. simpl. rewrite length_insert.
    split_and!; [done..|].
    intros k. rewrite entry_insert_bucket by done.
    destruct (Hok _ _ Hc) as [Hnd Hidx].
    case_decide as Heq.
    + rewrite (remove_loop_entry c c' key k Hloop Hnd).
      case_decide; [done|]. unfold entry. by rewrite Heq, Hc.
    + case_decide; [|done]. by subst.
  - apply remove_loop_None in Hloop. apply chain_entry_None in Hloop.
    unfold entry in Hsome. rewrite Hc in Hsome. simpl in Hsome.
    rewrite Hloop in Hsome. by destruct Hsome.
Qed.

Lemma get_entry_of_index (m : HashMap) (key : pykey) :
  well_formed m →
  ∃ c, buckets m !! Z.to_nat (hash key mod size m) = Some c ∧
       get m key = Some (chain_entry (KInt (hash key mod size m)) c).
Proof.
  intros Hwf. destruct (bucket_lookup hash V m key Hwf) as (c & Hc & Hget).
  exists c. split; [done|].
  unfold HashMap.get. rewrite _hash_Some by done. simpl.
  rewrite Hget. simpl. by rewrite get_loop_entry.
Qed.

(** X14.  For an integer key equal to the index of its own bucket,
    [get] right after [put] returns the value put. *)
Theorem get_after_put_index_key (m : HashMap) (i : Z) (value : V) :
  well_formed m → (hash (KInt i) mod size m = i)%Z →
  ∃ m', put m (KInt i) value = Some m' ∧
        get m' (KInt i) = Some (Some value).
Proof.
  intros Hwf Hi.
  destruct (put_entry m (KInt i) value Hwf)
    as (m' & Hrun & Hsz & Hlen & _ & Hentry).
  exists m'. split; [done|].
  assert (well_formed m') as Hwf'.
  { destruct Hwf as [Hpos Hl]. split; [by rewrite Hsz | by rewrite Hsz, Hlen]. }
  destruct (get_entry_of_index m' (KInt i) Hwf') as (c & Hc & ->).
  specialize (Hentry (KInt i)). rewrite decide_True in Hentry by done.
  unfold entry in Hentry. rewrite Hc in Hentry. simpl in Hentry.
  rewrite Hsz in *. rewrite Hi. by rewrite Hentry.
Qed.

(** X15.  For any other key (a string, or an integer different from its
    bucket index) [put(key, value)] does not change what [get(key)]
    returns. *)
Theorem put_invisible_to_get (m : HashMap) (key : pykey) (value : V) :
  well_formed m → key ≠ KInt (hash key mod size m) →
  ∃ m', put m key value = Some m' ∧ get m' key = get m key.
Proof.
  intros Hwf Hne.
  destruct (bucket_lookup hash V m key Hwf) as (c & Hc & Hget).
  pose proof (index_in_range hash V m key Hwf) as Hi.
  unfold HashMap.put, HashMap.get. rewrite _hash_Some by done. simpl.
  rewrite Hget. simpl.
  assert (∀ c', chain_entry (KInt (hash key mod size m)) c'
                = chain_entry (KInt (hash key mod size m)) c →
    (index ← HashMap._hash hash V
               (mkHashMap (size m) (<[Z.to_nat (hash key mod size m) := c']> (buckets m))) key;
     current ← py_getitem (<[Z.to_nat (hash key mod size m) := c']> (buckets m)) index;
     Some (get_loop current index))
    = Some (get_loop c (hash key mod size m))) as Hsame.
  { intros c' Hc'. unfold HashMap._hash. simpl.
    destruct Hwf as [Hpos Hlen].
    destruct (Z.eqb_spec (size m) 0); [lia|]. simpl.
    unfold py_getitem. rewrite length_insert, py_position_in_range by done.
    simpl. rewrite list_lookup_insert_eq by lia. simpl.
    by rewrite !get_loop_entry, Hc'. }
  destruct (put_loop c key value) as [c'|] eqn:Hloop;
    rewrite bucket_update by done; simpl; eexists; (split; [done|]); simpl.
  - apply Hsame. rewrite (put_loop_entry c c' key value _ Hloop).
    by rewrite decide_False by congruence.
  - apply Hsame. rewrite chain_entry_Node. by rewrite decide_False.
Qed.

End WithHash.

Lemma sample_map_chains_ok : chains_ok sample_hash string sample_map.
Proof.
  destruct (put_all_correct sample_hash string
              [(KInt 1, "one"%string); (KInt 5, "five"%string)] (new 4))
    as (m' & Hrun & _ & Hok & _);
    [by apply well_formed_new | apply chains_ok_new |].
  rewrite sample_map_built in Hrun. by injection Hrun as <-.
Qed.

Lemma sample_map_well_formed : well_formed string sample_map.
Proof. split; reflexivity. Qed.

(** [put_sets_entry] at [sample_map]: a third key in bucket 1. *)
Lemma put_sets_entry_witness :
  ∃ m', HashMap.put sample_hash string sample_map (KInt 9) "nine" = Some m' ∧
        size m' = 4%Z ∧ length (buckets m') = 4 ∧
        (chains_ok sample_hash string sample_map →
         chains_ok sample_hash string m') ∧
        ∀ k, entry sample_hash string m' k
             = if decide (k = KInt 9) then Some "nine"%string
               else entry sample_hash string sample_map k.
Proof.
  apply (put_sets_entry sample_hash string sample_map (KInt 9) "nine").
  apply sample_map_well_formed.
Defined.

(** [remove_absent_key] at [sample_map]. *)
Lemma remove_absent_key_witness :
  HashMap.remove sample_hash string sample_map (KInt 2)
  = Some (false, sample_map).
Proof.
  apply remove_absent_key; [apply sample_map_well_formed | reflexivity].
Defined.

(** [remove_clears_entry] at [sample_map]. *)
Lemma remove_clears_entry_witness :
  ∃ m', HashMap.remove sample_hash string sample_map (KInt 5) = Some (true, m') ∧
        size m' = 4%Z ∧ length (buckets m') = 4 ∧
        chains_ok sample_hash string m' ∧
        ∀ k, entry sample_hash string m' k
             = if decide (k = KInt 5) then None
               else entry sample_hash string sample_map k.
Proof.
  apply (remove_clears_entry sample_hash string sample_map (KInt 5)).
  - apply sample_map_well_formed.
  - apply sample_map_chains_ok.
  - by exists "five"%string.
Defined.

(** [get_after_put_index_key] at [sample_map], key 1 in bucket 1. *)
Lemma get_after_put_index_key_witness :
  ∃ m', HashMap.put sample_hash string sample_map (KInt 1) "uno" = Some m' ∧
        HashMap.get sample_hash string m' (KInt 1) = Some (Some "uno"%string).
Proof.
  apply get_after_put_index_key; [apply sample_map_well_formed | reflexivity].
Defined.

(** [put_invisible_to_get] at [sample_map], key 5 in bucket 1. *)
Lemma put_invisible_to_get_witness :
  ∃ m', HashMap.put sample_hash string sample_map (KInt 5) "cinq" = Some m' ∧
        HashMap.get sample_hash string m' (KInt 5)
        = HashMap.get sample_hash string sample_map (KInt 5).
Proof.
  apply put_invisible_to_get; [apply sample_map_well_formed | discriminate].
Defined.

End HashMapExtra.

(** ** Graph: the constructor and the enumerated paths *)
Module GraphExtra.
Import Graph GraphSpec.
Implicit Types g : gmap string (list string).

(** *** The adjacency dictionary of the constructor *)

(** The ends of the edges that leave [s], in the order of [edges]. *)
Definition ends_from (edges : list (string * string)) (s : string)
  : list string :=
  (filter (λ e, e.1 = s) edges).*2.

Lemma new_snoc edges (s e : string) :
  new (edges ++ [(s, e)]) =
    match new edges !! s with
    | Some adj => <[s := adj ++ [e]]> (new edges)
    | None => <[s := [e]]> (new edges)
    end.
Proof. unfold new. by rewrite foldl_snoc. Qed.

(** X16.  The constructor maps every label that starts an edge to the
    ends of its edges, in the order of the edge list and with repeats;
    a label that starts no edge gets no entry. *)
Theorem new_adjacency (edges : list (string * string)) (s : string) :
  new edges !! s =
    if decide (ends_from edges s = []) then None
    else Some (ends_from edges s).
Proof.
  induction edges as [|[a b] edges IH] using rev_ind; [done|].
  rewrite new_snoc. unfold ends_from in *.
  rewrite filter_app, fmap_app.
  destruct (decide (a = s)) as [->|Hne].
  - rewrite filter_cons_True by done. simpl. rewrite IH.
    case_decide as Hnil.
    + rewrite Hnil, lookup_insert_eq. simpl. done.
    + rewrite lookup_insert_eq. rewrite decide_False; [done|].
      by intros [? _]%app_eq_nil.
  - rewrite filter_cons_False by done. simpl. rewrite app_nil_r.
    destruct (new edges !! a); by rewrite lookup_insert_ne.
Qed.

(** *** What [get_all_paths] enumerates *)

(** [w] is a walk along edges from [s] that stops the first time it
    meets [end_]. *)
Fixpoint walk_to g (end_ : string) (s : string) (w : list string) : Prop :=
  match w with
  | [] => False
  | x :: w' =>
      x = s ∧
      if decide (s = end_) then w' = []
      else ∃ n, edge g s n ∧ walk_to g end_ n w'
  end.

Lemma for_each_collect {A B} (xs : list A) (f : A → option (list B)) :
  ∀ acc r,
  for_each xs (λ temp x, new ← f x; Some (temp ++ new)) acc = Some r →
  ∀ p, p ∈ r ↔ p ∈ acc ∨ ∃ x rx, x ∈ xs ∧ f x = Some rx ∧ p ∈ rx.
Proof.
  induction xs as [|x xs IH]; intros acc r; simpl.
  - intros [= <-] p. split; [by left|]. intros [?|(x & rx & []%elem_of_nil & _)]. done.
  - destruct (f x) as [rx|] eqn:Hfx; simpl; [|done].
    intros Hrun p. rewrite (IH _ _ Hrun), elem_of_app. split.
    + intros [[?|?]|(y & ry & Hy & Hfy & Hp)]; [by left | | ].
      * right. exists x, rx. split_and!; [by left | done..].
      * right. exists y, ry. split_and!; [by right | done..].
    + intros [?|(y & ry & [->|Hy]%elem_of_cons & Hfy & Hp)].
      * left. by left.
      * left. right. congruence.
      * right. by exists y, ry.
Qed.

Lemma get_all_paths_walks fuel : ∀ g start end_ path r,
  get_all_paths fuel g start end_ path = Some r →
  ∀ p, p ∈ r ↔ ∃ w, p = path ++ w ∧ walk_to g end_ start w.
Proof.
  induction fuel as [|fuel IH]; intros g start end_ path r; [done|].
  simpl. case_decide as Heq.
  - intros [= <-] p. rewrite list_elem_of_singleton. split.
    + intros ->. exists [start]. simpl. by rewrite decide_True.
    + intros ([|x w] & -> & Hw); simpl in Hw; [done|].
      destruct Hw as [-> Hw]. rewrite decide_True in Hw by done. by subst.
  - assert (∀ p, (∃ w, p = path ++ w ∧ walk_to g end_ start w) ↔
       ∃ n w', edge g start n ∧
               p = (path ++ [start]) ++ w' ∧ walk_to g end_ n w') as Hstep.
    { intros p. split.
      - intros ([|x w] & -> & Hw); simpl in Hw; [done|].
        destruct Hw as [-> Hw]. rewrite decide_False in Hw by done.
        destruct Hw as (n & Hedge & Hw).
        exists n, w. split_and!; [done | | done]. by rewrite <-app_assoc.
      - intros (n & w' & Hedge & -> & Hw). exists (start :: w').
        split; [by rewrite <-app_assoc|]. simpl. rewrite decide_False by done.
        split; [done|]. by exists n. }
    destruct (g !! start) as [adj|] eqn:Hadj.
    + destruct (Nat.eqb_spec (length adj) 0) as [Hz|Hnz].
      * intros [= <-] p. rewrite Hstep. simpl. split; [by intros ?%elem_of_nil|].
        intros (n & w' & (adj' & Hadj' & Hn) & _).
        assert (adj' = adj) as -> by congruence.
        destruct adj; [by apply elem_of_nil in Hn | done].
      * intros Hrun p. rewrite Hstep.
        rewrite (for_each_collect adj
                   (λ node, get_all_paths fuel g node end_ (path ++ [start]))
                   [] r Hrun p).
        split.
        -- intros [[]%elem_of_nil|(n & rn & Hn & Hrn & Hp)].
           apply (IH _ _ _ _ _ Hrn) in Hp as (w' & -> & Hw).
           exists n, w'. split_and!; [by exists adj | done..].
        -- intros (n & w' & (adj' & Hadj' & Hn) & -> & Hw).
           assert (adj' = adj) as -> by congruence.
           right.
           destruct (get_all_paths fuel g n end_ (path ++ [start])) as [rn|] eqn:Hrn.
           ++ exists n, rn. split_and!; [done..|].
              apply (IH _ _ _ _ _ Hrn). by exists w'.
           ++ exfalso. clear -Hrun Hn Hrn. revert Hrun. generalize (@nil (list string)).
              induction adj as [|a adj IHadj]; intros acc; simpl.
              { by apply elem_of_nil in Hn. }
              apply elem_of_cons in Hn as [->|Hn].
              { by rewrite Hrn. }
              destruct (get_all_paths fuel g a end_ (path ++ [start])); simpl; [|done].
              by apply IHadj.
    + intros [= <-] p. rewrite Hstep. split; [by intros ?%elem_of_nil|].
      intros (n & w' & (adj & Hadj' & _) & _). congruence.
Qed.

(** A walk to [end_] starts at [s], ends at [end_], follows edges, and
    meets [end_] at its last position only. *)
Lemma walk_to_shape g end_ : ∀ w s,
  walk_to g end_ s w →
  head w = Some s ∧ last w = Some end_ ∧
  (∀ i a b, w !! i = Some a → w !! S i = Some b → edge g a b) ∧
  (∀ i, S i < length w → w !! i ≠ Some end_).
Proof.
  induction w as [|x w IH]; intros s; simpl; [done|].
  intros [-> Hw]. case_decide as Heq.
  - subst. split_and!; [done.. | |].
    + intros i a b _ Hb. by destruct i.
    + intros i Hi. simpl in Hi. lia.
  - destruct Hw as (n & Hedge & Hw).
    destruct (IH n Hw) as (Hhead & Hlast & Hedges & Hend).
    split_and!; [done | | |].
    + destruct w; [done|]. done.
    + intros [|i] a b Ha Hb; simpl in *.
      * destruct w as [|y w]; [done|]. simpl in *. congruence.
      * by eapply Hedges.
    + intros [|i] Hi; simpl in *; [congruence|].
      apply Hend. lia.
Qed.

Lemma for_each_is_Some {A B} (xs : list A) (f : A → option (list B)) :
  (∀ x, x ∈ xs → is_Some (f x)) →
  ∀ acc, is_Some (for_each xs (λ temp x, new ← f x; Some (temp ++ new)) acc).
Proof.
  induction xs as [|x xs IH]; intros Hf acc; simpl; [done|].
  destruct (Hf x) as [rx ->]; [by left|]. simpl.
  apply IH. intros y Hy. apply Hf. by right.
Qed.

Lemma get_all_paths_is_Some g start end_ rank fuel : ∀ s path,
  ranked_from g start rank → reachable g start s → rank s < fuel →
  is_Some (get_all_paths fuel g s end_ path).
Proof.
  induction fuel as [|fuel IH]; intros s path Hrank Hs Hfuel; [lia|].
  simpl. case_decide; [done|].
  destruct (g !! s) as [adj|] eqn:Hadj; [|done].
  destruct (length adj =? 0); [done|].
  apply for_each_is_Some. intros node Hnode.
  assert (edge g s node) as Hedge by (by exists adj).
  apply IH; [done | by eapply rtc_r |].
  specialize (Hrank _ _ Hs Hedge). lia.
Qed.

(** X17.  When no cycle can be reached from [start], [get_all_paths]
    returns: one result for every recursion depth above the rank of
    [start]. *)
Theorem get_all_paths_returns_without_cycle
    g (start end_ : string) (path : list string) (rank : string → nat) :
  ranked_from g start rank →
  ∃ r, ∀ fuel, rank start < fuel →
    get_all_paths fuel g start end_ path = Some r.
Proof.
  intros Hrank.
  destruct (get_all_paths_is_Some g start end_ rank (S (rank start)) start path)
    as [r Hr]; [done | apply rtc_refl | lia |].
  exists r. intros fuel Hfuel. apply (get_all_paths_mono _ _ _ _ _ _ _ Hr). lia.
Qed.

(** X18.  Whenever [get_all_paths(start, end, path)] returns, its result
    holds exactly the lists [path + w] for the walks [w] along edges from
    [start] that stop the first time they meet [end]. *)
Theorem get_all_paths_enumerates_walks
    (fuel : nat) g (start end_ : string) (path : list string) r :
  get_all_paths fuel g start end_ path = Some r →
  ∀ p, p ∈ r ↔ ∃ w, p = path ++ w ∧ walk_to g end_ start w.
Proof. apply get_all_paths_walks. Qed.

(** X19.  Every path that [get_all_paths(start, end)] returns begins
    with [start], ends with [end], goes along edges of the dictionary
    from each node to the next, and has [end] at no earlier position. *)
Theorem enumerated_paths_shape (fuel : nat) g (start end_ : string) r p :
  get_all_paths fuel g start end_ [] = Some r → p ∈ r →
  head p = Some start ∧ last p = Some end_ ∧
  (∀ i a b, p !! i = Some a → p !! S i = Some b → edge g a b) ∧
  (∀ i, S i < length p → p !! i ≠ Some end_).
Proof.
  intros Hrun Hp.
  apply (get_all_paths_walks _ _ _ _ _ _ Hrun) in Hp as (w & -> & Hw).
  by apply walk_to_shape.
Qed.

(** X20.  For [start] different from [end], whenever the enumeration
    returns, [find_shortest_path] returns a walk from [start] to [end]
    with the fewest nodes of all such walks, and the empty list when
    there is no such walk. *)
Theorem find_shortest_path_fewest_nodes
    (fuel : nat) g (start end_ : string) r :
  start ≠ end_ → get_all_paths fuel g start end_ [] = Some r →
  ∃ p, find_shortest_path fuel g start end_ = Some p ∧
       ((∀ w, ¬ walk_to g end_ start w) → p = []) ∧
       (∀ w, walk_to g end_ start w →
             walk_to g end_ start p ∧ length p ≤ length w).
Proof.
  intros Hne Hrun. pose proof (get_all_paths_walks _ _ _ _ _ _ Hrun) as Hchar.
  unfold find_shortest_path. rewrite decide_False by done.
  rewrite Hrun. simpl.
  destruct (Nat.eqb_spec (length r) 0) as [Hz|Hnz]; simpl.
  - apply nil_length_inv in Hz as ->. exists []. split_and!; [done..|].
    intros w Hw. assert (w ∈ @nil (list string)) as []%elem_of_nil.
    apply Hchar. by exists w.
  - assert (r ≠ []) as Hr by (by intros ->).
    destruct (shortest_loop_correct r Hr) as (i & sl & p & -> & Hp & Hmin).
    simpl. exists p. split_and!; [done | |].
    + intros Hnone. apply list_elem_of_lookup_2, Hchar in Hp as (w & -> & Hw).
      by destruct (Hnone w).
    + intros w Hw. split.
      * apply list_elem_of_lookup_2, Hchar in Hp as (w' & -> & Hw'). done.
      * apply Hmin, Hchar. by exists w.
Qed.
(** [get_all_paths_returns_without_cycle] on the sample graph. *)
Lemma get_all_paths_returns_without_cycle_witness :
  ∃ r, ∀ fuel, sample_rank "Mumbai" < fuel →
    get_all_paths fuel graph "Mumbai" "Toronto" [] = Some r.
Proof.
  apply get_all_paths_returns_without_cycle. apply ranked_sample.
Defined.

(** [get_all_paths_enumerates_walks] on the sample graph. *)
Lemma get_all_paths_enumerates_walks_witness :
  ["Mumbai"; "Paris"; "New York"]%string ∈ sample_paths ↔
  ∃ w, ["Mumbai"; "Paris"; "New York"]%string = [] ++ w ∧
       walk_to graph "New York" "Mumbai" w.
Proof.
  apply (get_all_paths_enumerates_walks 4 graph "Mumbai" "New York" []).
  reflexivity.
Defined.

(** [enumerated_paths_shape] on the sample graph. *)
Lemma enumerated_paths_shape_witness :
  head ["Mumbai"; "Dubai"; "New York"]%string = Some "Mumbai"%string ∧
  last ["Mumbai"; "Dubai"; "New York"]%string = Some "New York"%string ∧
  (∀ i a b, ["Mumbai"; "Dubai"; "New York"]%string !! i = Some a →
            ["Mumbai"; "Dubai"; "New York"]%string !! S i = Some b →
            edge graph a b) ∧
  (∀ i, S i < 3 →
        ["Mumbai"; "Dubai"; "New York"]%string !! i ≠ Some "New York"%string).
Proof.
  apply (enumerated_paths_shape 4 graph "Mumbai" "New York" sample_paths).
  - reflexivity.
  - apply (bool_decide_unpack _). vm_compute. exact I.
Defined.

(** [find_shortest_path_fewest_nodes] on the sample graph. *)
Lemma find_shortest_path_fewest_nodes_witness :
  ∃ p, find_shortest_path 4 graph "Mumbai" "New York" = Some p ∧
       ((∀ w, ¬ walk_to graph "New York" "Mumbai" w) → p = []) ∧
       (∀ w, walk_to graph "New York" "Mumbai" w →
             walk_to graph "New York" "Mumbai" p ∧ length p ≤ length w).
Proof.
  apply (find_shortest_path_fewest_nodes 4 graph "Mumbai" "New York" sample_paths).
  - discriminate.
  - reflexivity.
Defined.

End GraphExtra.
